(** * my_Webserver: the bounded work queue / worker pool and the HTTP
      connection, embedded from [threadpool/threadpool.h] and
      [http/http_conn.h].

    The pool is embedded the way the header writes it: one record for the
    members of [threadpool<T>], the member functions as actions on that
    record, and the worker loop [run] cut at its statements so that several
    workers, the producer calling [append] and the destructor can be
    interleaved.

    Of the connection the header gives the constants, the enumerations and
    the members; the request parser and the response builder work on a
    record of these members, the receive buffer with its three indices, the
    send buffer as a fixed array with its write index. *)

From Stdlib Require Import ZArith Lia Ascii.
From Stdlib Require String.
From stdpp Require Import base tactics option list numbers strings pretty.

Local Open Scope nat_scope.

(* ===================================================================== *)
(** ** threadpool/threadpool.h *)
(* ===================================================================== *)

Module ThreadPool.

Section WithTask.

(** [T] is the template parameter (the server instantiates it with
    [http_conn]); [connection_pool] is the external database pool, of which
    the thread pool only stores a pointer. *)
Context {T : Type} {connection_pool : Type}.

(** A [T *]: [None] is the null pointer. *)
Definition request : Type := option T.

(** What a thread does to the shared objects, in program order. *)
Inductive event : Type :=
| EvLock                      (* m_queuelocker.lock()   *)
| EvUnlock                    (* m_queuelocker.unlock() *)
| EvPush (r : request)        (* m_workqueue.push_back  *)
| EvPop (r : request)         (* front() + pop_front()  *)
| EvPost                      (* m_queuestat.post()     *)
| EvWait                      (* m_queuestat.wait() returned *)
| EvAcquire (t : T)           (* connectionRAII constructor *)
| EvProcess (t : T)           (* request->process()     *)
| EvRelease (t : T)           (* connectionRAII destructor  *)
| EvDeleteThreads             (* delete[] m_threads     *)
| EvSetStop                   (* m_stop = true          *)
| EvCreate (i : nat)          (* pthread_create(m_threads + i, ..., worker, this) == 0 *)
| EvDetach (i : nat).         (* pthread_detach(m_threads[i]) == 0 *)

(** The data members of [threadpool<T>] (lines 58-65). The mutex is the
    flag "held", the semaphore its counter, the [pthread_t] array its
    length while it is allocated. *)
Record threadpool : Type := mk_threadpool {
  m_thread_number : Z;
  m_max_requests : Z;
  m_threads : option nat;
  m_workqueue : list request;
  m_queuelocker : bool;
  m_queuestat : nat;
  m_stop : bool;
  m_connPool : connection_pool
}.

Definition set_workqueue (q : list request) (p : threadpool) : threadpool :=
  mk_threadpool (m_thread_number p) (m_max_requests p) (m_threads p) q
                (m_queuelocker p) (m_queuestat p) (m_stop p) (m_connPool p).
Definition set_queuelocker (b : bool) (p : threadpool) : threadpool :=
  mk_threadpool (m_thread_number p) (m_max_requests p) (m_threads p)
                (m_workqueue p) b (m_queuestat p) (m_stop p) (m_connPool p).
Definition set_queuestat (n : nat) (p : threadpool) : threadpool :=
  mk_threadpool (m_thread_number p) (m_max_requests p) (m_threads p)
                (m_workqueue p) (m_queuelocker p) n (m_stop p) (m_connPool p).
Definition set_stop (b : bool) (p : threadpool) : threadpool :=
  mk_threadpool (m_thread_number p) (m_max_requests p) (m_threads p)
                (m_workqueue p) (m_queuelocker p) (m_queuestat p) b (m_connPool p).
Definition set_threads (a : option nat) (p : threadpool) : threadpool :=
  mk_threadpool (m_thread_number p) (m_max_requests p) a
                (m_workqueue p) (m_queuelocker p) (m_queuestat p) (m_stop p)
                (m_connPool p).

(** *** Actions of one thread

    An action runs in the calling thread against the shared pool. [None]
    means that the thread cannot go on now: it is suspended in [lock()] or
    in [wait()]. Otherwise the action gives its result, the new pool and
    the events it performed. *)
Definition Act (A : Type) : Type :=
  threadpool -> option (A * threadpool * list event).

#[local] Instance Act_ret : MRet Act := fun A a p => Some (a, p, []).

#[local] Instance Act_bind : MBind Act := fun A B k c p =>
  match c p with
  | None => None
  | Some (a, p1, t1) =>
      match k a p1 with
      | None => None
      | Some (b, p2, t2) => Some (b, p2, t1 ++ t2)
      end
  end.

(** Modelled from the spec: [locker] and [sem] of lock/locker.h, which is
    not among the sources. The spec gives them as a mutual-exclusion lock
    and a counting semaphore: [lock] suspends the caller while the lock is
    held, [wait] suspends it while the counter is zero and decrements it
    otherwise, [post] increments it. *)
Definition lock : Act unit := fun p =>
  if m_queuelocker p then None
  else Some (tt, set_queuelocker true p, [EvLock]).
Definition unlock : Act unit := fun p =>
  Some (tt, set_queuelocker false p, [EvUnlock]).
Definition wait : Act unit := fun p =>
  match m_queuestat p with
  | O => None
  | S n => Some (tt, set_queuestat n p, [EvWait])
  end.
Definition post : Act unit := fun p =>
  Some (tt, set_queuestat (S (m_queuestat p)) p, [EvPost]).

(** [std::list] operations on [m_workqueue]. *)
Definition size : Act nat := fun p => Some (length (m_workqueue p), p, []).
Definition empty : Act bool := fun p =>
  Some (match m_workqueue p with [] => true | _ => false end, p, []).
Definition push_back (r : request) : Act unit := fun p =>
  Some (tt, set_workqueue (m_workqueue p ++ [r]) p, [EvPush r]).
(** [front()] followed by [pop_front()]; the worker calls them only on a
    queue it has found non-empty, on an empty list the pair is undefined
    and the model leaves the thread stuck. *)
Definition front_pop : Act request := fun p =>
  match m_workqueue p with
  | [] => None
  | r :: q => Some (r, set_workqueue q p, [EvPop r])
  end.

Definition get_max_requests : Act Z := fun p => Some (m_max_requests p, p, []).
Definition get_stop : Act bool := fun p => Some (m_stop p, p, []).

(** [m_workqueue.size() > m_max_requests] compares a [size_t] with an
    [int]: the [int] is converted to the 64-bit unsigned type first. *)
Definition size_t_of_int (z : Z) : Z := (z mod 2 ^ 64)%Z.

(** [threadpool<T>::append] (lines 126-140). *)
Definition append (r : request) : Act bool :=
  lock;;
  n ← size;
  mx ← get_max_requests;
  if (Z.of_nat n >? size_t_of_int mx)%Z then
    unlock;;
    mret false
  else
    push_back r;;
    unlock;;
    post;;
    mret true.

(** [threadpool<T>::~threadpool] (lines 116-120). *)
Definition destroy : Act unit := fun p =>
  Some (tt, set_stop true (set_threads None p), [EvDeleteThreads; EvSetStop]).

(** Modelled from the spec: [connectionRAII] of
    CGImysql/sql_connection_pool.h, which is not among the sources. The
    spec gives its contract as acquire-one / release-one: constructing the
    object checks one handle out of the external pool for the task, and
    the end of the object's scope hands it back. *)
Definition connectionRAII_ctor (t : T) : Act unit := fun p =>
  Some (tt, p, [EvAcquire t]).
Definition connectionRAII_dtor (t : T) : Act unit := fun p =>
  Some (tt, p, [EvRelease t]).

(** [request->process()]: it works on the connection only, the pool sees
    that it ran. *)
Definition process (t : T) : Act unit := fun p => Some (tt, p, [EvProcess t]).

(** *** The worker loop [run] (lines 163-194), cut at its statements.

    [worker] (lines 147-157), the start routine of every thread, only calls
    [run] on the pool. A worker is at one of these program points. *)
Inductive worker_pc : Type :=
| LoopTest                    (* line 167: while (!m_stop)            *)
| SemWait                     (* line 170: m_queuestat.wait()         *)
| QueueLock                   (* line 172: m_queuelocker.lock()       *)
| EmptyTest                   (* line 174: if (m_workqueue.empty())   *)
| Unlocking (r : request)     (* line 184: unlock() after the pop     *)
| NullTest (r : request)      (* line 185: if (!request) continue     *)
| RAIIBegin (t : T)           (* line 189: connectionRAII mysqlcon    *)
| Processing (t : T)          (* line 192: request->process()         *)
| RAIIEnd (t : T)             (* line 193: end of the loop body scope *)
| Returned.                   (* line 194: run() has returned         *)

Definition worker_step (pc : worker_pc) : Act worker_pc :=
  match pc return Act worker_pc with
  | LoopTest =>
      stop ← get_stop;
      mret (if (stop : bool) then Returned else SemWait)
  | SemWait =>
      wait;;
      mret QueueLock
  | QueueLock =>
      lock;;
      mret EmptyTest
  | EmptyTest =>
      e ← empty;
      if (e : bool) then
        unlock;;
        mret LoopTest
      else
        r ← front_pop;
        mret (Unlocking r)
  | Unlocking r =>
      unlock;;
      mret (NullTest r)
  | NullTest r =>
      match r return Act worker_pc with
      | None => mret LoopTest
      | Some t => mret (RAIIBegin t)
      end
  | RAIIBegin t =>
      connectionRAII_ctor t;;
      mret (Processing t)
  | Processing t =>
      process t;;
      mret (RAIIEnd t)
  | RAIIEnd t =>
      connectionRAII_dtor t;;
      mret LoopTest
  | Returned => fun _ => None
  end.

(** *** The constructor (lines 73-111)

    What the constructor cannot decide itself: whether the allocation of
    the [pthread_t] array succeeds, and what the [i]-th [pthread_create]
    and [pthread_detach] answer. *)
Record pthread_env : Type := mk_pthread_env {
  new_ok : bool;
  pthread_create_ok : nat -> bool;
  pthread_detach_ok : nat -> bool
}.

Inductive construction : Type :=
| Threw (evs : list event)                      (* throw std::exception() *)
| Constructed (p : threadpool) (evs : list event).

(** The loop [for (int i = 0; i < thread_number; ++i)], entered at [i]
    with [n] rounds to go; [false] is the [throw] inside the loop. A
    created thread starts [worker(this)] at once. *)
Fixpoint spawn (env : pthread_env) (i n : nat) : bool * list event :=
  match n with
  | O => (true, [])
  | S n' =>
      if pthread_create_ok env i then
        if pthread_detach_ok env i then
          let '(ok, evs) := spawn env (S i) n' in
          (ok, EvCreate i :: EvDetach i :: evs)
        else (false, [EvCreate i; EvDeleteThreads])
      else (false, [EvDeleteThreads])
  end.

Definition threadpool_ctor (env : pthread_env) (connPool : connection_pool)
    (thread_number max_requests : Z) : construction :=
  let p := mk_threadpool thread_number max_requests None [] false 0 false
                         connPool in
  if ((thread_number <=? 0) || (max_requests <=? 0))%Z then Threw []
  else if negb (new_ok env) then Threw []
  else
    let p := set_threads (Some (Z.to_nat (m_thread_number p))) p in
    match spawn env 0 (Z.to_nat thread_number) with
    | (true, evs) => Constructed p evs
    | (false, evs) => Threw evs
    end.

(** How many workers an event list has started. *)
Fixpoint created (evs : list event) : nat :=
  match evs with
  | [] => 0
  | EvCreate _ :: rest => S (created rest)
  | _ :: rest => created rest
  end.

Fixpoint detached (evs : list event) : nat :=
  match evs with
  | [] => 0
  | EvDetach _ :: rest => S (detached rest)
  | _ :: rest => detached rest
  end.

(** *** The threads together *)

Inductive thread_id : Type :=
| MainThread
| WorkerThread (i : nat).

Record system : Type := mk_system {
  pool : threadpool;
  workers : list worker_pc
}.

(** One move of the whole program: the producer calls [append], worker
    [i] executes its next statement, or the pool is destroyed. *)
Inductive action : Type :=
| ActAppend (r : request)
| ActWorker (i : nat)
| ActDestroy.

Definition trace : Type := list (thread_id * event).

Definition by_thread (th : thread_id) (evs : list event) : trace :=
  map (fun e => (th, e)) evs.

Definition sys_step (a : action) (s : system) : option (system * trace) :=
  match a with
  | ActAppend r =>
      match append r (pool s) with
      | None => None
      | Some (_, p', evs) =>
          Some (mk_system p' (workers s), by_thread MainThread evs)
      end
  | ActWorker i =>
      match workers s !! i with
      | None => None
      | Some pc =>
          match worker_step pc (pool s) with
          | None => None
          | Some (pc', p', evs) =>
              Some (mk_system p' (<[i := pc']> (workers s)),
                    by_thread (WorkerThread i) evs)
          end
      end
  | ActDestroy =>
      match destroy (pool s) with
      | None => None
      | Some (_, p', evs) =>
          Some (mk_system p' (workers s), by_thread MainThread evs)
      end
  end.

(** The program once the constructor has returned: every worker is at
    the top of its loop. *)
Definition start_system (p : threadpool) : system :=
  mk_system p (replicate (Z.to_nat (m_thread_number p)) LoopTest).

Fixpoint sys_exec (acts : list action) (s : system) : option (system * trace) :=
  match acts with
  | [] => Some (s, [])
  | a :: rest =>
      match sys_step a s with
      | None => None
      | Some (s1, t1) =>
          match sys_exec rest s1 with
          | None => None
          | Some (s2, t2) => Some (s2, t1 ++ t2)
          end
      end
  end.

(** *** Reading a trace *)

(** The events of worker [i], in program order. *)
Definition events_of (i : nat) (tr : trace) : list event :=
  omap (fun x : thread_id * event =>
          match x.1 with
          | WorkerThread j => if decide (j = i) then Some x.2 else None
          | MainThread => None
          end) tr.

(** The requests put into the queue, and those taken out of it, in the
    order in which that happened. *)
Definition pushed (tr : trace) : list request :=
  omap (fun x : thread_id * event =>
          match x.2 with EvPush r => Some r | _ => None end) tr.

Definition popped (tr : trace) : list request :=
  omap (fun x : thread_id * event =>
          match x.2 with EvPop r => Some r | _ => None end) tr.

Definition is_wait (e : event) : bool :=
  match e with EvWait => true | _ => false end.
Definition is_pop (e : event) : bool :=
  match e with EvPop _ => true | _ => false end.
Definition is_post (e : event) : bool :=
  match e with EvPost => true | _ => false end.

Fixpoint count (f : event -> bool) (evs : list event) : nat :=
  match evs with
  | [] => 0
  | e :: rest => (if f e then 1 else 0) + count f rest
  end.

(** The program points between a worker's [lock()] and its [unlock()]. *)
Definition holds_lock (pc : worker_pc) : bool :=
  match pc with
  | EmptyTest | Unlocking _ => true
  | _ => false
  end.

Fixpoint holders (ws : list worker_pc) : nat :=
  match ws with
  | [] => 0
  | pc :: rest => (if holds_lock pc then 1 else 0) + holders rest
  end.

(** The lock is held exactly when one worker is between [lock()] and
    [unlock()] ([append] takes and gives back the lock within one move). *)
Definition lock_discipline (s : system) : Prop :=
  holders (workers s) = if m_queuelocker (pool s) then 1 else 0.

(** The three ways through one round of the loop body, from the wait to
    the next test of the loop condition. *)
Definition iteration (evs : list event) : Prop :=
  evs = [EvWait; EvLock; EvUnlock]
  \/ evs = [EvWait; EvLock; EvPop None; EvUnlock]
  \/ exists t, evs = [EvWait; EvLock; EvPop (Some t); EvUnlock;
                      EvAcquire t; EvProcess t; EvRelease t].

(** What a worker at [pc] has done of its current round. *)
Definition round_so_far (pc : worker_pc) : list event :=
  match pc with
  | LoopTest | SemWait | Returned => []
  | QueueLock => [EvWait]
  | EmptyTest => [EvWait; EvLock]
  | Unlocking r => [EvWait; EvLock; EvPop r]
  | NullTest r => [EvWait; EvLock; EvPop r; EvUnlock]
  | RAIIBegin t => [EvWait; EvLock; EvPop (Some t); EvUnlock]
  | Processing t => [EvWait; EvLock; EvPop (Some t); EvUnlock; EvAcquire t]
  | RAIIEnd t => [EvWait; EvLock; EvPop (Some t); EvUnlock; EvAcquire t; EvProcess t]
  end.

(** A worker's whole history: finished rounds, then the current one. *)
Definition worker_history (pc : worker_pc) (evs : list event) : Prop :=
  exists rounds, Forall iteration rounds /\ evs = concat rounds ++ round_so_far pc.

(** Every worker's events so far are finished rounds followed by the round
    it is in; a thread that is no worker of the pool has no events. *)
Definition histories (s : system) (tr : trace) : Prop :=
  forall i,
    match workers s !! i with
    | Some pc => worker_history pc (events_of i tr)
    | None => events_of i tr = []
    end.

Definition is_append (a : action) : bool :=
  match a with ActAppend _ => true | _ => false end.

(** *** Counting workers and events *)

(** How many workers are at a program point of the kind [f]. *)
Fixpoint pcs_count (f : worker_pc -> bool) (ws : list worker_pc) : nat :=
  match ws with
  | [] => 0
  | pc :: rest => (if f pc then 1 else 0) + pcs_count f rest
  end.


(** Inside the scope of [mysqlcon] (lines 189-193): the handle is out. *)
Definition in_scope (pc : worker_pc) : bool :=
  match pc with
  | Processing _ | RAIIEnd _ => true
  | _ => false
  end.

(** The task a worker has taken from the queue and not yet handed to
    [process()]. *)
Definition carried (pc : worker_pc) : list T :=
  match pc with
  | Unlocking (Some t) | NullTest (Some t) | RAIIBegin t | Processing t => [t]
  | _ => []
  end.

(** The real (non-null) tasks a thread has popped, and those it has
    processed, in its program order. *)
Definition taken (evs : list event) : list T :=
  omap (fun e => match e with EvPop (Some t) => Some t | _ => None end) evs.

Definition processed (evs : list event) : list T :=
  omap (fun e => match e with EvProcess t => Some t | _ => None end) evs.

Definition is_acquire (e : event) : bool :=
  match e with EvAcquire _ => true | _ => false end.
Definition is_release (e : event) : bool :=
  match e with EvRelease _ => true | _ => false end.
Definition is_delete (e : event) : bool :=
  match e with EvDeleteThreads => true | _ => false end.

(** All events of a trace, whoever performed them. *)
Definition events (tr : trace) : list event := map snd tr.

(** What the constructor's loop has done once [k] threads are set up. *)
Definition spawned (k : nat) : list event :=
  flat_map (fun i => [EvCreate i; EvDetach i]) (seq 0 k).


(** [n] statements of one worker in a row. *)
Fixpoint worker_run (n : nat) (pc : worker_pc) : Act worker_pc :=
  match n with
  | O => mret pc
  | S n' =>
      pc' ← worker_step pc;
      worker_run n' pc'
  end.

End WithTask.

End ThreadPool.

(* ===================================================================== *)
(** ** http/http_conn.h *)
(* ===================================================================== *)

(** The header gives the constants, the enumerations, the data members and
    the signatures of [http_conn]; the bodies of the member functions are
    not among the sources, and are modelled from the design text, section
    by section. *)

Module HttpConn.

Definition bytes (s : string) : list ascii := String.list_ascii_of_string s.

Definition CR : ascii := "013"%char.
Definition LF : ascii := "010"%char.
Definition SP : ascii := " "%char.
Definition NUL : ascii := "000"%char.
Definition CRLF : list ascii := [CR; LF].

(** Lines 48-50. *)
Definition FILENAME_LEN : nat := 200.
Definition READ_BUFFER_SIZE : nat := 2048.
Definition WRITE_BUFFER_SIZE : nat := 1024.

(** Lines 51-85. *)
Inductive METHOD : Type :=
| GET | POST | HEAD | PUT | DELETE | TRACE | OPTIONS | CONNECT | PATH.

Inductive CHECK_STATE : Type :=
| CHECK_STATE_REQUESTLINE | CHECK_STATE_HEADER | CHECK_STATE_CONTENT.

Inductive HTTP_CODE : Type :=
| NO_REQUEST | GET_REQUEST | BAD_REQUEST | NO_RESOURCE | FORBIDDEN_REQUEST
| FILE_REQUEST | INTERNAL_ERROR | CLOSED_CONNECTION.

Inductive LINE_STATUS : Type :=
| LINE_OK | LINE_BAD | LINE_OPEN.

(** The data members the parser and the response builder work on (lines
    131-150). [m_read_buf] is the filled part of the receive buffer, so that
    [m_read_idx] is its length; [m_write_buf] is the whole send buffer;
    the [char *] members that point into the receive buffer are the bytes
    they point at, [m_string] the offset of the body. *)
Record http_conn : Type := mk_http_conn {
  m_read_buf : list ascii;
  m_checked_idx : nat;
  m_start_line : nat;
  m_write_buf : list ascii;
  m_write_idx : nat;
  m_check_state : CHECK_STATE;
  m_method : METHOD;
  m_url : list ascii;
  m_version : list ascii;
  m_host : list ascii;
  m_content_length : nat;
  m_linger : bool;
  cgi : bool;
  m_string : option nat
}.

Definition m_read_idx (c : http_conn) : nat := length (m_read_buf c).

Definition set_read_buf (b : list ascii) (c : http_conn) : http_conn :=
  mk_http_conn b (m_checked_idx c) (m_start_line c) (m_write_buf c)
    (m_write_idx c) (m_check_state c) (m_method c) (m_url c) (m_version c)
    (m_host c) (m_content_length c) (m_linger c) (cgi c) (m_string c).
Definition set_checked_idx (i : nat) (c : http_conn) : http_conn :=
  mk_http_conn (m_read_buf c) i (m_start_line c) (m_write_buf c)
    (m_write_idx c) (m_check_state c) (m_method c) (m_url c) (m_version c)
    (m_host c) (m_content_length c) (m_linger c) (cgi c) (m_string c).
Definition set_start_line (i : nat) (c : http_conn) : http_conn :=
  mk_http_conn (m_read_buf c) (m_checked_idx c) i (m_write_buf c)
    (m_write_idx c) (m_check_state c) (m_method c) (m_url c) (m_version c)
    (m_host c) (m_content_length c) (m_linger c) (cgi c) (m_string c).
Definition set_write (b : list ascii) (i : nat) (c : http_conn) : http_conn :=
  mk_http_conn (m_read_buf c) (m_checked_idx c) (m_start_line c) b i
    (m_check_state c) (m_method c) (m_url c) (m_version c)
    (m_host c) (m_content_length c) (m_linger c) (cgi c) (m_string c).
Definition set_check_state (st : CHECK_STATE) (c : http_conn) : http_conn :=
  mk_http_conn (m_read_buf c) (m_checked_idx c) (m_start_line c) (m_write_buf c)
    (m_write_idx c) st (m_method c) (m_url c) (m_version c)
    (m_host c) (m_content_length c) (m_linger c) (cgi c) (m_string c).
Definition set_request_line (m : METHOD) (u v : list ascii) (c : http_conn)
    : http_conn :=
  mk_http_conn (m_read_buf c) (m_checked_idx c) (m_start_line c) (m_write_buf c)
    (m_write_idx c) (m_check_state c) m u v
    (m_host c) (m_content_length c) (m_linger c)
    (match m with POST => true | _ => false end) (m_string c).
Definition set_host (h : list ascii) (c : http_conn) : http_conn :=
  mk_http_conn (m_read_buf c) (m_checked_idx c) (m_start_line c) (m_write_buf c)
    (m_write_idx c) (m_check_state c) (m_method c) (m_url c) (m_version c)
    h (m_content_length c) (m_linger c) (cgi c) (m_string c).
Definition set_content_length (n : nat) (c : http_conn) : http_conn :=
  mk_http_conn (m_read_buf c) (m_checked_idx c) (m_start_line c) (m_write_buf c)
    (m_write_idx c) (m_check_state c) (m_method c) (m_url c) (m_version c)
    (m_host c) n (m_linger c) (cgi c) (m_string c).
Definition set_linger (b : bool) (c : http_conn) : http_conn :=
  mk_http_conn (m_read_buf c) (m_checked_idx c) (m_start_line c) (m_write_buf c)
    (m_write_idx c) (m_check_state c) (m_method c) (m_url c) (m_version c)
    (m_host c) (m_content_length c) b (cgi c) (m_string c).
Definition set_string (o : option nat) (c : http_conn) : http_conn :=
  mk_http_conn (m_read_buf c) (m_checked_idx c) (m_start_line c) (m_write_buf c)
    (m_write_idx c) (m_check_state c) (m_method c) (m_url c) (m_version c)
    (m_host c) (m_content_length c) (m_linger c) (cgi c) o.

(** Modelled from the spec: [http_conn::init()], whose body is missing. A
    fresh or re-used connection has its parse state at the request line and
    the indices of both buffers at 0. *)
Definition init : http_conn :=
  mk_http_conn [] 0 0 (replicate WRITE_BUFFER_SIZE NUL) 0
    CHECK_STATE_REQUESTLINE GET [] [] [] 0 false false None.

(** Modelled from the spec: [http_conn::read_once()], whose body is
    missing. The incoming bytes go behind the bytes already buffered, as far
    as the fixed capacity of the receive buffer allows. *)
Definition read_once (incoming : list ascii) (c : http_conn) : http_conn :=
  set_read_buf
    (m_read_buf c ++ take (READ_BUFFER_SIZE - m_read_idx c) incoming) c.

(** *** Line extraction *)

(** Modelled from the spec: the scan of [parse_line] (section 4.1, line
    extraction) over the bytes from position [i] on, giving the status and
    the new [checked_index]. A ["\r\n"] ends a line and the index
    moves behind it; a ["\r"] as the last buffered byte leaves the line open
    with the index on the ["\r"]; a ["\r"] followed by another byte, or a
    ["\n"] that no ["\r"] precedes, is malformed. *)
Fixpoint scan (rest : list ascii) (i : nat) : LINE_STATUS * nat :=
  match rest with
  | [] => (LINE_OPEN, i)
  | a :: rest' =>
      if decide (a = CR) then
        match rest' with
        | [] => (LINE_OPEN, i)
        | b :: _ => if decide (b = LF) then (LINE_OK, i + 2) else (LINE_BAD, i)
        end
      else if decide (a = LF) then (LINE_BAD, i)
      else scan rest' (S i)
  end.

(** Modelled from the spec: [http_conn::parse_line()], whose body is
    missing (section 4.1, line extraction): scan the receive buffer from
    [checked_index] forward. *)
Definition parse_line (c : http_conn) : LINE_STATUS * http_conn :=
  let '(st, i) := scan (drop (m_checked_idx c) (m_read_buf c)) (m_checked_idx c) in
  (st, set_checked_idx i c).

(** Line 111: [get_line()] is [m_read_buf + m_start_line]. *)
Definition get_line (c : http_conn) : list ascii :=
  drop (m_start_line c) (m_read_buf c).

(** The text of the line that [parse_line] has just found complete: from
    [start_line] up to its terminator. *)
Definition line_text (c : http_conn) : list ascii :=
  take (m_checked_idx c - 2 - m_start_line c) (get_line c).

(** *** The request line *)

(** The text before the first [sep] and the text behind it. *)
Fixpoint break_at (sep : ascii) (text : list ascii)
    : option (list ascii * list ascii) :=
  match text with
  | [] => None
  | a :: rest =>
      if decide (a = sep) then Some ([], rest)
      else match break_at sep rest with
           | None => None
           | Some (l, r) => Some (a :: l, r)
           end
  end.

(** The verbs of [METHOD], matched case-sensitively. *)
Definition method_name (m : METHOD) : list ascii :=
  match m with
  | GET => bytes "GET" | POST => bytes "POST" | HEAD => bytes "HEAD"
  | PUT => bytes "PUT" | DELETE => bytes "DELETE" | TRACE => bytes "TRACE"
  | OPTIONS => bytes "OPTIONS" | CONNECT => bytes "CONNECT"
  | PATH => bytes "PATH"
  end.

Definition all_methods : list METHOD :=
  [GET; POST; HEAD; PUT; DELETE; TRACE; OPTIONS; CONNECT; PATH].

Definition method_of (tok : list ascii) : option METHOD :=
  snd <$> list_find (fun m => method_name m = tok) all_methods.

(** "If the URL begins with http://, strip scheme and host, keeping only the
    path": the path starts at the first ['/'] behind the scheme. *)
Fixpoint from_slash (u : list ascii) : list ascii :=
  match u with
  | [] => []
  | a :: rest => if decide (a = "/"%char) then u else from_slash rest
  end.

Definition strip_scheme (u : list ascii) : list ascii :=
  if decide (take 7 u = bytes "http://") then from_slash (drop 7 u) else u.

Section Parser.

(** The default landing resource an empty path maps to, and the resolution
    of a complete request against the document root ([do_request], line
    110): both are outside the parser. *)
Variable default_resource : list ascii.
Variable do_request : http_conn -> HTTP_CODE.

(** Modelled from the spec: [http_conn::parse_request_line], whose body is
    missing (section 4.1, RequestLine): split on single spaces into method,
    URL and version; an unknown method, or anything but three tokens, is
    [BAD_REQUEST]; on success the state becomes Header. *)
Definition parse_request_line (text : list ascii) (c : http_conn)
    : HTTP_CODE * http_conn :=
  match break_at SP text with
  | None => (BAD_REQUEST, c)
  | Some (tok, rest) =>
      match break_at SP rest with
      | None => (BAD_REQUEST, c)
      | Some (url, version) =>
          match method_of tok, break_at SP version, version with
          | None, _, _ => (BAD_REQUEST, c)
          | Some _, Some _, _ => (BAD_REQUEST, c)
          | Some _, None, [] => (BAD_REQUEST, c)
          | Some m, None, _ :: _ =>
              let path := strip_scheme url in
              let path := match path with [] => default_resource | _ => path end in
              (NO_REQUEST,
               set_check_state CHECK_STATE_HEADER (set_request_line m path version c))
          end
      end
  end.

(** *** Header lines *)

Definition is_blank (a : ascii) : bool :=
  bool_decide (a = SP) || bool_decide (a = "009"%char).

Fixpoint skip_blanks (v : list ascii) : list ascii :=
  match v with
  | a :: rest => if is_blank a then skip_blanks rest else v
  | [] => []
  end.

Definition to_lower (a : ascii) : ascii :=
  let n := nat_of_ascii a in
  if (65 <=? n) && (n <=? 90) then ascii_of_nat (n + 32) else a.

Definition digit_of (a : ascii) : option nat :=
  let n := nat_of_ascii a in
  if (48 <=? n) && (n <=? 57) then Some (n - 48) else None.

(** The non-negative integer the leading decimal digits spell. *)
Fixpoint parse_nat (acc : nat) (v : list ascii) : nat :=
  match v with
  | [] => acc
  | a :: rest =>
      match digit_of a with
      | Some d => parse_nat (10 * acc + d) rest
      | None => acc
      end
  end.

(** Modelled from the spec: [http_conn::parse_headers], whose body is
    missing (section 4.1, Header). An empty line ends the header block: a
    POST with a positive Content-Length goes on to Content, every other
    request is complete. A line ["Name: Value"] with one of the recognised
    names sets the field; every other line is ignored. *)
Definition parse_headers (text : list ascii) (c : http_conn)
    : HTTP_CODE * http_conn :=
  match text with
  | [] =>
      match m_method c with
      | POST =>
          if 0 <? m_content_length c
          then (NO_REQUEST, set_check_state CHECK_STATE_CONTENT c)
          else (GET_REQUEST, c)
      | _ => (GET_REQUEST, c)
      end
  | _ :: _ =>
      match break_at ":"%char text with
      | None => (NO_REQUEST, c)
      | Some (name, value) =>
          let value := skip_blanks value in
          if decide (name = bytes "Connection") then
            if decide (map to_lower value = bytes "keep-alive")
            then (NO_REQUEST, set_linger true c)
            else (NO_REQUEST, c)
          else if decide (name = bytes "Content-Length") then
            (NO_REQUEST, set_content_length (parse_nat 0 value) c)
          else if decide (name = bytes "Host") then
            (NO_REQUEST, set_host value c)
          else (NO_REQUEST, c)
      end
  end.

(** Modelled from the spec: [http_conn::parse_content], whose body is
    missing (section 4.1, Content): the body is there once the receive
    buffer holds at least [start_line + Content-Length] bytes; its span is
    then recorded and the request is complete. *)
Definition parse_content (c : http_conn) : HTTP_CODE * http_conn :=
  if m_start_line c + m_content_length c <=? m_read_idx c
  then (GET_REQUEST, set_string (Some (m_start_line c)) c)
  else (NO_REQUEST, c).

(** The handler of the current state, for a complete line. *)
Definition dispatch (text : list ascii) (c : http_conn) : HTTP_CODE * http_conn :=
  match m_check_state c with
  | CHECK_STATE_REQUESTLINE => parse_request_line text c
  | CHECK_STATE_HEADER => parse_headers text c
  | CHECK_STATE_CONTENT => (INTERNAL_ERROR, c)
  end.

(** Modelled from the spec: [http_conn::process_read], whose body is
    missing (section 4.1, overall parse). The loop: in the Content state
    check that the body is buffered, otherwise extract a line and hand it to
    the handler of the state; go on while complete lines remain; an open
    line is [NO_REQUEST], a malformed one [BAD_REQUEST], a complete request
    is resolved by [do_request]. [fuel] bounds the rounds of the loop;
    [None] is "out of fuel". *)
Fixpoint process_read_loop (fuel : nat) (c : http_conn)
    : option (HTTP_CODE * http_conn) :=
  match fuel with
  | O => None
  | S fuel' =>
      match m_check_state c with
      | CHECK_STATE_CONTENT =>
          match parse_content c with
          | (GET_REQUEST, c') => Some (do_request c', c')
          | (_, c') => Some (NO_REQUEST, c')
          end
      | _ =>
          match parse_line c with
          | (LINE_OPEN, c1) => Some (NO_REQUEST, c1)
          | (LINE_BAD, c1) => Some (BAD_REQUEST, c1)
          | (LINE_OK, c1) =>
              let text := line_text c1 in
              let c2 := set_start_line (m_checked_idx c1) c1 in
              match dispatch text c2 with
              | (NO_REQUEST, c3) => process_read_loop fuel' c3
              | (GET_REQUEST, c3) => Some (do_request c3, c3)
              | (code, c3) => Some (code, c3)
              end
          end
      end
  end.

(** Modelled from the spec: [process_read] is the loop above. Every round
    but the last takes a line of at least two bytes out of the buffer, so
    this many rounds are enough. *)
Definition process_read (c : http_conn) : option (HTTP_CODE * http_conn) :=
  process_read_loop (S (m_read_idx c)) c.

(** The reactor's side of incremental parsing: the bytes arrive in
    chunks; after each chunk [read_once] buffers it and [process_read] runs
    on the connection as the previous run left it; [NO_REQUEST] keeps the
    connection waiting for the next chunk, every other classification ends
    the request. *)
Fixpoint feed (chunks : list (list ascii)) (c : http_conn)
    : option (HTTP_CODE * http_conn) :=
  match chunks with
  | [] => Some (NO_REQUEST, c)
  | chunk :: rest =>
      match process_read (read_once chunk c) with
      | Some (NO_REQUEST, c') =>
          match rest with
          | [] => Some (NO_REQUEST, c')
          | _ :: _ => feed rest c'
          end
      | r => r
      end
  end.

Definition one_by_one (req : list ascii) : list (list ascii) :=
  map (fun a => [a]) req.

(** *** Well-formed requests *)

(** A request as the client means it: the parts of the request line, the
    header lines and the body. *)
Record request : Type := mk_request {
  rq_method : METHOD;
  rq_url : list ascii;
  rq_version : list ascii;
  rq_headers : list (list ascii);
  rq_body : list ascii
}.

Definition request_line (r : request) : list ascii :=
  method_name (rq_method r) ++ SP :: rq_url r ++ SP :: rq_version r.

(** The lines of the header block: request line, header lines, and the empty
    line that ends the block. *)
Definition head_lines (r : request) : list (list ascii) :=
  request_line r :: rq_headers r ++ [[]].

Definition terminated (lines : list (list ascii)) : list ascii :=
  concat (map (fun l => l ++ CRLF) lines).

(** The bytes on the wire. *)
Definition wire (r : request) : list ascii :=
  terminated (head_lines r) ++ rq_body r.

Definition is_clean (a : ascii) : bool :=
  negb (bool_decide (a = CR)) && negb (bool_decide (a = LF)).

Definition is_token_char (a : ascii) : bool :=
  is_clean a && negb (bool_decide (a = SP)).

Definition nonempty (l : list ascii) : bool :=
  match l with [] => false | _ :: _ => true end.

(** The connection after the header lines [hs] have been handled. *)
Definition after_headers (hs : list (list ascii)) (c : http_conn) : http_conn :=
  fold_left (fun c h => (parse_headers h c).2) hs c.

(** The body length the header block announces: the Content-Length of a
    POST, nothing for the other methods. *)
Definition announced_body (r : request) : nat :=
  match rq_method r with
  | POST => m_content_length (after_headers (rq_headers r) init)
  | _ => 0
  end.

(** Well-formed: URL and version are non-empty-version tokens without
    space, CR or LF; the header lines are non-empty and free of CR and LF;
    the body is as long as announced; and the whole fits the receive
    buffer. *)
Definition well_formed (r : request) : bool :=
  forallb is_token_char (rq_url r)
  && forallb is_token_char (rq_version r) && nonempty (rq_version r)
  && forallb (fun h => forallb is_clean h && nonempty h) (rq_headers r)
  && (length (rq_body r) =? announced_body r)
  && (length (wire r) <=? READ_BUFFER_SIZE).

End Parser.

(** *** The response builder *)

(** One store into a [char] array; [None] is a store outside the array,
    which the language leaves undefined. *)
Definition store (i : nat) (a : ascii) (buf : list ascii) : option (list ascii) :=
  if decide (i < length buf) then Some (<[i := a]> buf) else None.

Fixpoint store_all (i : nat) (bs buf : list ascii) : option (list ascii) :=
  match bs with
  | [] => Some buf
  | a :: rest =>
      match store i a buf with
      | None => None
      | Some buf' => store_all (S i) rest buf'
      end
  end.

(** Modelled from the spec: [http_conn::add_response], whose body is
    missing (section 4.2): the bounded formatted append. [formatted] is what
    the format and its arguments expand to. When these bytes do not fit
    into what is left of the send buffer nothing is written and the answer
    is [false]; otherwise they are stored from [write_index] on. *)
Definition add_response (formatted : list ascii) (c : http_conn)
    : option (bool * http_conn) :=
  if WRITE_BUFFER_SIZE <? m_write_idx c + length formatted then Some (false, c)
  else
    match store_all (m_write_idx c) formatted (m_write_buf c) with
    | None => None
    | Some buf => Some (true, set_write buf (m_write_idx c + length formatted) c)
    end.

(** [a && b] on two steps of the builder: [b] runs only when [a] has
    answered [true]. *)
Definition and_then (a b : http_conn -> option (bool * http_conn))
    (c : http_conn) : option (bool * http_conn) :=
  match a c with
  | Some (true, c') => b c'
  | r => r
  end.

Definition decimal (n : nat) : list ascii := bytes (pretty n).

Section Response.

(** The server's one content type, the canned body of an error response,
    and the size of the file to be sent: given from outside. *)
Variable content_type : list ascii.
Variable error_form : HTTP_CODE -> list ascii.
Variable file_size : nat.

(** Modelled from the spec: the pieces of the header block (lines 115-121
    declare them, the bodies are missing; section 4.2 lists what is
    written). *)
Definition status_line (status : nat) (title : list ascii) : list ascii :=
  bytes "HTTP/1.1 " ++ decimal status ++ SP :: title ++ CRLF.
Definition content_length_line (n : nat) : list ascii :=
  bytes "Content-Length: " ++ decimal n ++ CRLF.
Definition content_type_line : list ascii :=
  bytes "Content-Type: " ++ content_type ++ CRLF.
Definition linger_line (linger : bool) : list ascii :=
  bytes "Connection: "
  ++ (if linger then bytes "keep-alive" else bytes "close") ++ CRLF.

Definition add_status_line (status : nat) (title : list ascii) :=
  add_response (status_line status title).
Definition add_content_length (n : nat) :=
  add_response (content_length_line n).
Definition add_content_type := add_response content_type_line.
Definition add_linger (c : http_conn) :=
  add_response (linger_line (m_linger c)) c.
Definition add_blank_line := add_response CRLF.
Definition add_content (content : list ascii) := add_response content.

Definition add_headers (n : nat) :=
  and_then (add_content_length n)
    (and_then add_content_type (and_then add_linger add_blank_line)).

(** The status and title of a classification (section 4.2). *)
Definition status_of (ret : HTTP_CODE) : option (nat * list ascii) :=
  match ret with
  | FILE_REQUEST => Some (200, bytes "OK")
  | BAD_REQUEST => Some (400, bytes "Bad Request")
  | FORBIDDEN_REQUEST => Some (403, bytes "Forbidden")
  | NO_RESOURCE => Some (404, bytes "Not Found")
  | INTERNAL_ERROR => Some (500, bytes "Internal Server Error")
  | _ => None
  end.

(** Modelled from the spec: [http_conn::process_write], whose body is
    missing (section 4.2): status line and headers; an error response has
    its canned body appended to the send buffer, the body of a file
    response is the mapped file. Without a status for the classification
    there is no response. *)
Definition process_write (ret : HTTP_CODE) (c : http_conn)
    : option (bool * http_conn) :=
  match status_of ret, ret with
  | None, _ => Some (false, c)
  | Some (status, title), FILE_REQUEST =>
      and_then (add_status_line status title) (add_headers file_size) c
  | Some (status, title), _ =>
      and_then (add_status_line status title)
        (and_then (add_headers (length (error_form ret)))
           (add_content (error_form ret))) c
  end.

(** The bytes [add_headers] and [process_write] ask the send buffer to
    take. *)
Definition header_bytes (n : nat) (linger : bool) : list ascii :=
  content_length_line n ++ content_type_line ++ linger_line linger ++ CRLF.

Definition response_bytes (ret : HTTP_CODE) (linger : bool) : list ascii :=
  match status_of ret, ret with
  | None, _ => []
  | Some (status, title), FILE_REQUEST =>
      status_line status title ++ header_bytes file_size linger
  | Some (status, title), _ =>
      status_line status title
      ++ header_bytes (length (error_form ret)) linger ++ error_form ret
  end.

End Response.

(** The send buffer is the whole array and the write index is inside
    it. *)
Definition send_buffer_ok (c : http_conn) : Prop :=
  length (m_write_buf c) = WRITE_BUFFER_SIZE /\ m_write_idx c <= WRITE_BUFFER_SIZE.

(** A step of the builder that appends [bs] or nothing: it never stores
    outside the send buffer, it keeps the buffer and the keep-alive flag as
    they should be, and when it answers [true] the write index has moved by
    the length of [bs]. *)
Definition fails_closed (linger : bool)
    (a : http_conn -> option (bool * http_conn)) (bs : list ascii) : Prop :=
  forall c,
    send_buffer_ok c -> m_linger c = linger ->
    exists ok c',
      a c = Some (ok, c') /\ send_buffer_ok c' /\ m_linger c' = linger
      /\ (ok = true -> m_write_idx c' = m_write_idx c + length bs).

End HttpConn.

(* ===================================================================== *)
(** ** Sample pools and runs (tasks are numbered) *)
(* ===================================================================== *)

Module Samples.
Import ThreadPool.

(** Three workers, at most two pending requests, as the constructor leaves
    the pool. *)
Definition idle_pool : @threadpool nat unit :=
  mk_threadpool 3 2 (Some 3) [] false 0 false tt.

(** The same pool with exactly [m_max_requests] requests pending. *)
Definition pool_at_max : @threadpool nat unit :=
  mk_threadpool 3 2 (Some 3) [Some 1; Some 2] false 2 false tt.

(** The same pool with the lock taken by somebody else. *)
Definition pool_locked : @threadpool nat unit :=
  mk_threadpool 3 2 (Some 3) [Some 1] true 1 false tt.

(** A worker's way from the top of the loop through the pop and the
    unlock. *)
Definition to_pop (i : nat) : list (@action nat) :=
  [ActWorker i; ActWorker i; ActWorker i; ActWorker i; ActWorker i].

(** A worker's way from the null test back to the top of the loop, for a
    real task. *)
Definition to_top (i : nat) : list (@action nat) :=
  [ActWorker i; ActWorker i; ActWorker i; ActWorker i].

(** Tasks 10, 20, 30 arrive, then workers 0, 1, 2 each take one. *)
Definition three_tasks : list (@action nat) :=
  [ActAppend (Some 10); ActAppend (Some 20); ActAppend (Some 30)]
  ++ to_pop 0 ++ to_pop 1 ++ to_pop 2.

(** Worker 1 takes task 10 and runs it to the end of the round, while
    worker 0 is woken by the second post for a request that is null. *)
Definition one_round : list (@action nat) :=
  [ActAppend (Some 10); ActAppend None] ++ to_pop 1 ++ to_top 1
  ++ to_pop 0 ++ [ActWorker 0].

(** Two workers asleep in [wait()] on an empty semaphore, a third at the
    top of its loop. *)
Definition asleep : @system nat unit :=
  mk_system idle_pool [SemWait; SemWait; LoopTest].

(** [pthread_create] works once and fails the second time. *)
Definition second_create_fails : pthread_env :=
  mk_pthread_env true (fun i => Nat.ltb i 1) (fun _ => true).

Definition all_fine : pthread_env :=
  mk_pthread_env true (fun _ => true) (fun _ => true).

(** Task 10 arrives and worker 0 goes as far as the empty test. *)
Definition before_pop : list (@action nat) :=
  [ActAppend (Some 10); ActWorker 0; ActWorker 0; ActWorker 0].

(** The pool is destroyed, then the third worker tests the loop
    condition. *)
Definition teardown_run : list (@action nat) := [ActDestroy; ActWorker 2].


(** Three tasks arrive at a pool with bound 2: the queue is at its
    largest. *)
Definition three_posted : list (@action nat) :=
  [ActAppend (Some 10); ActAppend (Some 20); ActAppend (Some 30)].

(** [pthread_detach] fails for the second thread. *)
Definition second_detach_fails : pthread_env :=
  mk_pthread_env true (fun _ => true) (fun i => Nat.ltb i 1).



End Samples.

(* ===================================================================== *)
(** ** Sample requests *)
(* ===================================================================== *)

Module HttpSamples.
Import HttpConn.

(** [POST /register HTTP/1.1] with [Content-Length: 20] and twenty body
    bytes. *)
Definition register : request :=
  mk_request POST (bytes "/register") (bytes "HTTP/1.1")
    [bytes "Content-Length: 20"; bytes "Connection: keep-alive"]
    (bytes "user=abc&passwd=1234").

(** [GET /index.html HTTP/1.1] with a [Host] header and no body. *)
Definition index : request :=
  mk_request GET (bytes "/index.html") (bytes "HTTP/1.1") [bytes "Host: x"] [].

(** A document root where every target resolves to a readable file. *)
Definition serve_file (c : http_conn) : HTTP_CODE := FILE_REQUEST.

Definition landing : list ascii := bytes "/judge.html".

(** The response side: the content type, the canned error bodies and a
    file of 100 bytes. *)
Definition html : list ascii := bytes "text/html".
Definition form (ret : HTTP_CODE) : list ascii :=
  bytes "Your request has bad syntax or is inherently impossible to satisfy.".
Definition hundred : nat := 100.

(** A fresh connection whose send buffer has four bytes left. *)
Definition nearly_full : http_conn := set_write (m_write_buf init) 1020 init.

End HttpSamples.

(* ===================================================================== *)
(** ** Properties of the thread pool *)
(* ===================================================================== *)

Import ThreadPool.

Ltac act_unfold :=
  unfold worker_step, append, destroy, mbind, Act_bind, mret, Act_ret,
    lock, unlock, wait, post, size, empty, push_back, front_pop,
    get_max_requests, get_stop, connectionRAII_ctor, connectionRAII_dtor,
    process in *.

Section ThreadPoolFacts.

Context {T : Type} {connection_pool : Type}.
Implicit Types (p : @threadpool T connection_pool) (r : @request T).
Implicit Types (s : @system T connection_pool) (tr : @trace T).

Lemma append_free_lock r p :
  m_queuelocker p = false ->
  append r p =
    if (Z.of_nat (length (m_workqueue p)) >? size_t_of_int (m_max_requests p))%Z
    then Some (false, p, [EvLock; EvUnlock])
    else Some (true,
               set_queuestat (S (m_queuestat p))
                 (set_workqueue (m_workqueue p ++ [r]) p),
               [EvLock; EvPush r; EvUnlock; EvPost]).
Proof.
  intros Hfree. destruct p as [tn mx th q lk st sp cp]; simpl in Hfree; subst lk.
  act_unfold; simpl.
  destruct (Z.of_nat (length q) >? size_t_of_int mx)%Z; reflexivity.
Qed.

Lemma append_held_lock r p :
  m_queuelocker p = true -> append r p = None.
Proof.
  intros Hheld. act_unfold. rewrite Hheld. reflexivity.
Qed.

(** *** Executions and their invariants *)

Lemma sys_exec_invariant (I : @system T connection_pool -> @trace T -> Prop) :
  (forall a s tr s' evs,
     I s tr -> sys_step a s = Some (s', evs) -> I s' (tr ++ evs)) ->
  forall acts s tr s' tr',
    I s tr -> sys_exec acts s = Some (s', tr') -> I s' (tr ++ tr').
Proof.
  intros Hstep acts. induction acts as [|a acts IH]; simpl; intros s tr s' tr' HI Hex.
  - simplify_eq. by rewrite app_nil_r.
  - destruct (sys_step a s) as [[s1 t1]|] eqn:Hs; [|done].
    destruct (sys_exec acts s1) as [[s2 t2]|] eqn:He; [|done].
    simplify_eq. rewrite app_assoc. eapply IH; [|done]. eapply Hstep; done.
Qed.

(** Every successful move, spelled out: the producer's [append], the
    destructor, or one statement of one worker. *)
Lemma sys_step_inv a s s' evs :
  sys_step a s = Some (s', evs) ->
  (exists r b p' es, a = ActAppend r /\ append r (pool s) = Some (b, p', es)
      /\ s' = mk_system p' (workers s) /\ evs = by_thread MainThread es)
  \/ (exists u p' es, a = ActDestroy /\ destroy (pool s) = Some (u, p', es)
      /\ s' = mk_system p' (workers s) /\ evs = by_thread MainThread es)
  \/ (exists i pc pc' p' es, a = ActWorker i /\ workers s !! i = Some pc
      /\ worker_step pc (pool s) = Some (pc', p', es)
      /\ s' = mk_system p' (<[i := pc']> (workers s))
      /\ evs = by_thread (WorkerThread i) es).
Proof.
  destruct a as [r|i|]; simpl; intros H.
  - left. destruct (append r (pool s)) as [[[b p'] es]|] eqn:E; simplify_eq.
    by exists r, b, p', es.
  - right; right. destruct (workers s !! i) as [pc|] eqn:Ei; [|done].
    destruct (worker_step pc (pool s)) as [[[pc' p'] es]|] eqn:E; simplify_eq.
    by exists i, pc, pc', p', es.
  - right; left. simplify_eq. by eexists tt, _, _.
Qed.

(** What one statement of the worker loop does, program point by program
    point. *)
Lemma worker_step_inv pc p pc' p' es :
  worker_step pc p = Some (pc', p', es) ->
  match pc with
  | LoopTest =>
      pc' = (if m_stop p then Returned else SemWait) /\ p' = p /\ es = []
  | SemWait =>
      exists n, m_queuestat p = S n /\ pc' = QueueLock
                /\ p' = set_queuestat n p /\ es = [EvWait]
  | QueueLock =>
      m_queuelocker p = false /\ pc' = EmptyTest
      /\ p' = set_queuelocker true p /\ es = [EvLock]
  | EmptyTest =>
      (m_workqueue p = [] /\ pc' = LoopTest
       /\ p' = set_queuelocker false p /\ es = [EvUnlock])
      \/ (exists r q, m_workqueue p = r :: q /\ pc' = Unlocking r
                      /\ p' = set_workqueue q p /\ es = [EvPop r])
  | Unlocking r =>
      pc' = NullTest r /\ p' = set_queuelocker false p /\ es = [EvUnlock]
  | NullTest None => pc' = LoopTest /\ p' = p /\ es = []
  | NullTest (Some t) => pc' = RAIIBegin t /\ p' = p /\ es = []
  | RAIIBegin t => pc' = Processing t /\ p' = p /\ es = [EvAcquire t]
  | Processing t => pc' = RAIIEnd t /\ p' = p /\ es = [EvProcess t]
  | RAIIEnd t => pc' = LoopTest /\ p' = p /\ es = [EvRelease t]
  | Returned => False
  end.
Proof.
  destruct pc as [| | | |r|[t|]|t|t|t|]; act_unfold; simpl; intros H;
    try (simplify_eq; done).
  - destruct (m_queuestat p) as [|n] eqn:E; simplify_eq. by exists n.
  - destruct (m_queuelocker p) eqn:E; simplify_eq. done.
  - destruct (m_workqueue p) as [|r q] eqn:E; simpl in *; simplify_eq.
    + by left.
    + rewrite E in H. simpl in H. simplify_eq. right. by exists r, q.
Qed.

(** *** The queue bound *)

(** C1: with exactly [m_max_requests] requests pending, [append] has to turn
    the request down. The test in the code is [size() > m_max_requests], so
    on the sample pool (bound 2, two pending) the call returns [true] and
    the queue grows to three entries; only the next call is turned down. *)
Lemma append_at_max_requests_accepted :
  append (Some 3) Samples.pool_at_max =
    Some (true,
          set_queuestat 3 (set_workqueue [Some 1; Some 2; Some 3] Samples.pool_at_max),
          [EvLock; EvPush (Some 3); EvUnlock; EvPost])
  /\ append (Some 4)
        (set_queuestat 3 (set_workqueue [Some 1; Some 2; Some 3] Samples.pool_at_max)) =
      Some (false,
            set_queuestat 3 (set_workqueue [Some 1; Some 2; Some 3] Samples.pool_at_max),
            [EvLock; EvUnlock]).
Proof. split; reflexivity. Qed.

(** *** [append] is atomic *)

(** C3: [append] can be held up by the queue lock only; when it returns
    [false] the pool is as it was (queue and semaphore untouched), when it
    returns [true] the request is the new last entry, the semaphore went up
    by one, and the post came after the unlock. It never waits on the
    semaphore. *)
Theorem append_atomic r p :
  (m_queuelocker p = true -> append r p = None)
  /\ (m_queuelocker p = false ->
      exists b p' evs,
        append r p = Some (b, p', evs)
        /\ m_queuelocker p' = false
        /\ count is_wait evs = 0
        /\ (b = false -> p' = p /\ evs = [EvLock; EvUnlock])
        /\ (b = true ->
            m_workqueue p' = m_workqueue p ++ [r]
            /\ m_queuestat p' = S (m_queuestat p)
            /\ evs = [EvLock; EvPush r; EvUnlock; EvPost])).
Proof.
  split; [apply append_held_lock|].
  intros Hfree. rewrite (append_free_lock r p Hfree).
  destruct (Z.of_nat (length (m_workqueue p)) >? size_t_of_int (m_max_requests p))%Z.
  - exists false, p, [EvLock; EvUnlock]. repeat split; done.
  - eexists true, _, _. split; [reflexivity|]. simpl. repeat split; done.
Qed.

(** *** First in, first out *)

Lemma pushed_app tr1 tr2 : pushed (tr1 ++ tr2) = pushed tr1 ++ pushed tr2.
Proof. apply omap_app. Qed.

Lemma popped_app tr1 tr2 : popped (tr1 ++ tr2) = popped tr1 ++ popped tr2.
Proof. apply omap_app. Qed.

Lemma sys_step_queue a s s' evs :
  sys_step a s = Some (s', evs) ->
  m_workqueue (pool s) ++ pushed evs = popped evs ++ m_workqueue (pool s').
Proof.
  intros H. apply sys_step_inv in H as
    [(r & b & p' & es & -> & Ha & -> & ->)
    |[(u & p' & es & -> & Hd & -> & ->)
    |(i & pc & pc' & p' & es & -> & Hi & Hw & -> & ->)]]; simpl.
  - destruct (m_queuelocker (pool s)) eqn:Hl.
    + by rewrite append_held_lock in Ha.
    + rewrite append_free_lock in Ha by done.
      destruct (_ >? _)%Z; simplify_eq; simpl; by rewrite ?app_nil_r.
  - unfold destroy in Hd. simplify_eq. simpl. by rewrite app_nil_r.
  - apply worker_step_inv in Hw.
    destruct pc as [| | | |r|[t|]|t|t|t|]; try done;
      try (destruct Hw as (-> & -> & ->); simpl; by rewrite app_nil_r).
    + destruct Hw as (n & _ & -> & -> & ->). simpl. by rewrite app_nil_r.
    + destruct Hw as (_ & -> & -> & ->). simpl. by rewrite app_nil_r.
    + destruct Hw as [(Hq & -> & -> & ->)|(r & q & Hq & -> & -> & ->)]; simpl.
      * by rewrite app_nil_r.
      * rewrite Hq. by rewrite app_nil_r.
Qed.

(** C2: the work queue is first in, first out. Along every run of the
    producer, the workers and the destructor, the requests that were in the
    queue at the start followed by those pushed since are exactly the
    requests popped so far, in the order of the pops, followed by those
    still queued: pops come out in arrival order, nothing overtakes. *)
Theorem work_queue_fifo acts s s' tr :
  sys_exec acts s = Some (s', tr) ->
  m_workqueue (pool s) ++ pushed tr = popped tr ++ m_workqueue (pool s').
Proof.
  intros Hex.
  pose proof (sys_exec_invariant
    (fun s1 tr1 => m_workqueue (pool s) ++ pushed tr1
                   = popped tr1 ++ m_workqueue (pool s1))) as Hinv.
  apply (Hinv) with (acts := acts) (s := s) (tr := []) (s' := s') (tr' := tr) in Hex.
  - exact Hex.
  - intros a s1 tr1 s2 evs HI Hs. apply sys_step_queue in Hs.
    rewrite pushed_app, popped_app, app_assoc, HI, <- !app_assoc. by f_equal.
  - simpl. by rewrite app_nil_r.
Qed.

(** *** The lock discipline *)

Lemma holders_insert (ws : list (@worker_pc T)) i pc pc' :
  ws !! i = Some pc ->
  holders (<[i := pc']> ws) + (if holds_lock pc then 1 else 0)
  = holders ws + (if holds_lock pc' then 1 else 0).
Proof.
  revert i. induction ws as [|w ws IH]; intros [|i] H; simplify_eq/=; [lia|].
  specialize (IH _ H). lia.
Qed.

Lemma holders_lookup (ws : list (@worker_pc T)) i pc :
  ws !! i = Some pc -> holds_lock pc = true -> 1 <= holders ws.
Proof.
  revert i. induction ws as [|w ws IH]; intros [|i] H Hh; simplify_eq/=.
  - rewrite Hh. lia.
  - specialize (IH _ H Hh). lia.
Qed.

Lemma holders_unique (ws : list (@worker_pc T)) i j pc pc' :
  holders ws <= 1 ->
  ws !! i = Some pc -> ws !! j = Some pc' ->
  holds_lock pc = true -> holds_lock pc' = true -> i = j.
Proof.
  revert i j. induction ws as [|w ws IH]; intros [|i] [|j] Hle Hi Hj Hp Hp';
    simplify_eq/=; try done.
  - rewrite Hp in Hle. pose proof (holders_lookup _ _ _ Hj Hp'). lia.
  - rewrite Hp' in Hle. pose proof (holders_lookup _ _ _ Hi Hp). lia.
  - f_equal. apply (IH i j); try done. destruct (holds_lock w); lia.
Qed.

Lemma holders_replicate n : holders (replicate n (@LoopTest T)) = 0.
Proof. induction n as [|n IH]; simpl; done. Qed.

Lemma start_system_lock_discipline p :
  m_queuelocker p = false -> lock_discipline (start_system p).
Proof.
  intros Hfree. unfold lock_discipline, start_system; simpl.
  rewrite Hfree. apply holders_replicate.
Qed.

Lemma sys_step_lock_discipline a s s' evs :
  lock_discipline s -> sys_step a s = Some (s', evs) -> lock_discipline s'.
Proof.
  unfold lock_discipline. intros HI H. apply sys_step_inv in H as
    [(r & b & p' & es & -> & Ha & -> & ->)
    |[(u & p' & es & -> & Hd & -> & ->)
    |(i & pc & pc' & p' & es & -> & Hi & Hw & -> & ->)]]; simpl.
  - destruct (m_queuelocker (pool s)) eqn:Hl.
    + by rewrite append_held_lock in Ha.
    + rewrite append_free_lock in Ha by done.
      destruct (_ >? _)%Z; simplify_eq; simpl; by rewrite ?Hl.
  - unfold destroy in Hd. simplify_eq. done.
  - pose proof (holders_insert (workers s) i pc pc' Hi) as Hins.
    apply worker_step_inv in Hw.
    destruct pc as [| | | |r|[t|]|t|t|t|]; try done;
      try (destruct Hw as (-> & -> & ->); simpl in *;
           try destruct (m_stop (pool s)); simpl in *; lia).
    + destruct Hw as (n & _ & -> & -> & ->). simpl in *. lia.
    + destruct Hw as (Hl & -> & -> & ->). simpl in *. rewrite Hl in HI. lia.
    + pose proof (holders_lookup _ _ _ Hi eq_refl).
      destruct Hw as [(Hq & -> & -> & ->)|(r & q & Hq & -> & -> & ->)];
        simpl in *; destruct (m_queuelocker (pool s)); lia.
    + pose proof (holders_lookup _ _ _ Hi eq_refl).
      destruct Hw as (-> & -> & ->).
      simpl in *; destruct (m_queuelocker (pool s)); lia.
Qed.

Lemma sys_exec_lock_discipline acts s s' tr :
  lock_discipline s -> sys_exec acts s = Some (s', tr) -> lock_discipline s'.
Proof.
  intros HI Hex.
  apply (sys_exec_invariant (fun s1 _ => lock_discipline s1))
    with (acts := acts) (s := s) (tr := []) (s' := s') (tr' := tr); try done.
  intros a s1 _ s2 evs. apply sys_step_lock_discipline.
Qed.

(** *** The shape of a worker's history *)

Lemma events_of_app i tr1 tr2 :
  events_of i (tr1 ++ tr2) = events_of i tr1 ++ events_of i tr2.
Proof. apply omap_app. Qed.

Lemma events_of_main i (es : list (@event T)) :
  events_of i (by_thread MainThread es) = [].
Proof. induction es as [|e es IH]; simpl; done. Qed.

Lemma events_of_worker i j (es : list (@event T)) :
  events_of i (by_thread (WorkerThread j) es) = if decide (j = i) then es else [].
Proof.
  induction es as [|e es IH]; simpl.
  - by destruct (decide (j = i)).
  - unfold events_of in *. simpl. destruct (decide (j = i)); simpl; by rewrite IH.
Qed.

Lemma count_app f (l1 l2 : list (@event T)) :
  count f (l1 ++ l2) = count f l1 + count f l2.
Proof. induction l1 as [|e l1 IH]; simpl; [done|]. rewrite IH. lia. Qed.

Lemma worker_step_round pc p pc' p' es :
  worker_step pc p = Some (pc', p', es) ->
  round_so_far pc' = round_so_far pc ++ es
  \/ (round_so_far pc' = [] /\ iteration (round_so_far pc ++ es)).
Proof.
  intros Hw. apply worker_step_inv in Hw. unfold iteration.
  destruct pc as [| | | |r|[t|]|t|t|t|]; try done.
  - destruct Hw as (-> & -> & ->). left. by destruct (m_stop p).
  - destruct Hw as (n & _ & -> & -> & ->). by left.
  - destruct Hw as (_ & -> & -> & ->). by left.
  - destruct Hw as [(Hq & -> & -> & ->)|(r & q & Hq & -> & -> & ->)].
    + right. split; [done|]. by left.
    + by left.
  - destruct Hw as (-> & -> & ->). by left.
  - destruct Hw as (-> & -> & ->). by left.
  - destruct Hw as (-> & -> & ->). right. split; [done|]. right; by left.
  - destruct Hw as (-> & -> & ->). by left.
  - destruct Hw as (-> & -> & ->). by left.
  - destruct Hw as (-> & -> & ->). right. split; [done|]. right; right. by exists t.
Qed.

Lemma worker_history_step pc p pc' p' es h :
  worker_step pc p = Some (pc', p', es) ->
  worker_history pc h -> worker_history pc' (h ++ es).
Proof.
  intros Hw (rounds & Hall & ->). apply worker_step_round in Hw as [Hr|[Hr Hit]].
  - exists rounds. split; [done|]. by rewrite Hr, app_assoc.
  - exists (rounds ++ [round_so_far pc ++ es]). split.
    + apply Forall_app. split; [done|]. by apply Forall_singleton.
    + rewrite Hr, concat_app. simpl. by rewrite !app_nil_r, app_assoc.
Qed.

Lemma sys_step_histories a s tr s' evs :
  histories s tr -> sys_step a s = Some (s', evs) -> histories s' (tr ++ evs).
Proof.
  intros HI H k. specialize (HI k). rewrite events_of_app.
  apply sys_step_inv in H as
    [(r & b & p' & es & -> & Ha & -> & ->)
    |[(u & p' & es & -> & Hd & -> & ->)
    |(i & pc & pc' & p' & es & -> & Hi & Hw & -> & ->)]]; simpl.
  - by rewrite events_of_main, app_nil_r.
  - by rewrite events_of_main, app_nil_r.
  - rewrite events_of_worker. destruct (decide (i = k)) as [->|Hne].
    + rewrite list_lookup_insert_eq by (by eapply lookup_lt_Some).
      rewrite Hi in HI. by eapply worker_history_step.
    + rewrite list_lookup_insert_ne by done. by rewrite app_nil_r.
Qed.

Lemma start_system_histories p : histories (start_system p) [].
Proof.
  intros i. unfold start_system; simpl.
  destruct (replicate _ _ !! i) as [pc|] eqn:E; [|done].
  apply lookup_replicate in E as [-> _]. exists []. by split.
Qed.

Lemma sys_exec_histories acts p s tr :
  sys_exec acts (start_system p) = Some (s, tr) -> histories s tr.
Proof.
  intros Hex.
  apply (sys_exec_invariant histories)
    with (acts := acts) (s := start_system p) (tr := []) (s' := s) (tr' := tr);
    try done.
  - intros a s1 tr1 s2 evs. apply sys_step_histories.
  - apply start_system_histories.
Qed.

Lemma iteration_pops (evs : list (@event T)) :
  iteration evs -> count is_pop evs <= count is_wait evs.
Proof. intros [->|[->|[t ->]]]; simpl; lia. Qed.

Lemma rounds_pops (rounds : list (list (@event T))) :
  Forall iteration rounds ->
  count is_pop (concat rounds) <= count is_wait (concat rounds).
Proof.
  induction 1 as [|it rounds Hit _ IH]; simpl; [done|].
  rewrite !count_app. apply iteration_pops in Hit. lia.
Qed.

Lemma worker_history_pops pc (h : list (@event T)) :
  worker_history pc h -> count is_pop h <= count is_wait h.
Proof.
  intros (rounds & Hall & ->). rewrite !count_app.
  apply rounds_pops in Hall.
  assert (count is_pop (round_so_far pc) <= count is_wait (round_so_far pc))
    by (destruct pc; simpl; lia).
  lia.
Qed.

(** *** Popping under the lock *)

(** C4: along every run from a freshly built pool, a worker statement that
    pops a request is executed by a worker at the empty test, with the queue
    lock held and held by no other worker, on a non-empty queue whose head
    it takes; a worker that finds the queue empty there only unlocks and goes
    back to the loop test; and no worker has popped more often than its
    [wait()] has returned. *)
Theorem worker_pop_guarded p acts s tr :
  m_queuelocker p = false ->
  sys_exec acts (start_system p) = Some (s, tr) ->
  (forall i s' evs r,
     sys_step (ActWorker i) s = Some (s', evs) ->
     In (WorkerThread i, EvPop r) evs ->
     workers s !! i = Some EmptyTest
     /\ m_queuelocker (pool s) = true
     /\ (forall j pc, workers s !! j = Some pc -> holds_lock pc = true -> j = i)
     /\ (exists q, m_workqueue (pool s) = r :: q /\ m_workqueue (pool s') = q)
     /\ evs = [(WorkerThread i, EvPop r)])
  /\ (forall i,
       workers s !! i = Some EmptyTest -> m_workqueue (pool s) = [] ->
       sys_step (ActWorker i) s =
         Some (mk_system (set_queuelocker false (pool s))
                         (<[i := LoopTest]> (workers s)),
               [(WorkerThread i, EvUnlock)]))
  /\ (forall i,
       count is_pop (events_of i tr) <= count is_wait (events_of i tr)).
Proof.
  intros Hfree Hex.
  pose proof (sys_exec_lock_discipline _ _ _ _
                (start_system_lock_discipline p Hfree) Hex) as Hlock.
  pose proof (sys_exec_histories _ _ _ _ Hex) as Hhist.
  split; [|split].
  - intros i s' evs r Hs Hin. apply sys_step_inv in Hs as
      [(r0 & b & p' & es & ? & _)
      |[(u & p' & es & ? & _)
      |(i0 & pc & pc' & p' & es & Ha & Hi & Hw & -> & ->)]]; try done.
    injection Ha as <-. apply worker_step_inv in Hw.
    assert (pc = EmptyTest /\ exists q, m_workqueue (pool s) = r :: q
            /\ p' = set_workqueue q (pool s) /\ es = [EvPop r]) as (-> & q & Hq & -> & ->).
    { destruct pc as [| | | |r1|[t|]|t|t|t|]; try done;
        try (destruct Hw as (-> & -> & ->); simpl in Hin;
             intuition (simplify_eq; done)).
      - destruct Hw as (n & _ & -> & -> & ->). simpl in Hin. intuition simplify_eq.
      - destruct Hw as (_ & -> & -> & ->). simpl in Hin. intuition simplify_eq.
      - destruct Hw as [(Hq & -> & -> & ->)|(r1 & q & Hq & -> & -> & ->)];
          simpl in Hin; [intuition simplify_eq|].
        destruct Hin as [Heq|[]]. simplify_eq. split; [done|]. by exists q. }
    pose proof (holders_lookup _ _ _ Hi eq_refl) as Hge.
    unfold lock_discipline in Hlock.
    destruct (m_queuelocker (pool s)) eqn:Hl; [|lia].
    repeat split; try done.
    + intros j pc Hj Hh. apply (holders_unique (workers s) j i pc EmptyTest);
        try done. lia.
    + by exists q.
  - intros i Hi Hq. simpl. rewrite Hi. act_unfold. simpl. rewrite Hq. done.
  - intros i. specialize (Hhist i). destruct (workers s !! i) as [pc|].
    + by eapply worker_history_pops.
    + rewrite Hhist. done.
Qed.

(** *** Teardown *)

Lemma sys_step_asleep a s s' evs i :
  is_append a = false ->
  workers s !! i = Some SemWait -> m_queuestat (pool s) = 0 ->
  sys_step a s = Some (s', evs) ->
  workers s' !! i = Some SemWait /\ m_queuestat (pool s') = 0
  /\ Forall (fun x => is_post x.2 = false) evs.
Proof.
  intros Hna Hi Hz H. apply sys_step_inv in H as
    [(r & b & p' & es & -> & _)
    |[(u & p' & es & -> & Hd & -> & ->)
    |(j & pc & pc' & p' & es & -> & Hj & Hw & -> & ->)]]; [done| |].
  - unfold destroy in Hd. simplify_eq. simpl. repeat split; try done.
    repeat constructor.
  - apply worker_step_inv in Hw. simpl.
    assert (j <> i) as Hne.
    { intros ->. rewrite Hi in Hj. simplify_eq.
      destruct Hw as (n & Hn & _). congruence. }
    rewrite list_lookup_insert_ne by done. split; [done|].
    destruct pc as [| | | |r|[t|]|t|t|t|]; try done;
      try (destruct Hw as (-> & -> & ->); simpl; split; [done|];
           repeat constructor).
    + destruct Hw as (n & Hn & _). congruence.
    + destruct Hw as (_ & -> & -> & ->). simpl. split; [done|]. repeat constructor.
    + destruct Hw as [(Hq & -> & -> & ->)|(r & q & Hq & -> & -> & ->)];
        simpl; (split; [done|]); repeat constructor.
Qed.

(** C5: the destructor sets the stop flag (and frees the thread array) and
    posts nothing; the worker loop looks at the stop flag at the loop test
    only; so a worker asleep in [wait()] on an empty semaphore stays there,
    unable to move, through every run made of the destructor and of worker
    statements: nothing in the pool but [append] ever posts. *)
Theorem teardown_never_wakes s i acts s' tr :
  workers s !! i = Some SemWait ->
  m_queuestat (pool s) = 0 ->
  Forall (fun a => is_append a = false) acts ->
  sys_exec acts s = Some (s', tr) ->
  (workers s' !! i = Some SemWait
   /\ m_queuestat (pool s') = 0
   /\ sys_step (ActWorker i) s' = None
   /\ Forall (fun x => is_post x.2 = false) tr)
  /\ (exists p' evs,
        destroy (pool s) = Some (tt, p', evs)
        /\ m_stop p' = true
        /\ m_queuestat p' = m_queuestat (pool s)
        /\ m_workqueue p' = m_workqueue (pool s)
        /\ m_queuelocker p' = m_queuelocker (pool s)
        /\ count is_post evs = 0)
  /\ (forall pc b,
        pc <> LoopTest ->
        worker_step pc (set_stop b (pool s)) =
          match worker_step pc (pool s) with
          | Some (pc', p', evs) => Some (pc', set_stop b p', evs)
          | None => None
          end).
Proof.
  intros Hi Hz Hacts Hex. split; [|split].
  - assert (workers s' !! i = Some SemWait /\ m_queuestat (pool s') = 0
            /\ Forall (fun x => is_post x.2 = false) tr) as (Hi' & Hz' & Hp).
    { revert s s' tr Hi Hz Hex.
      induction Hacts as [|a acts Ha _ IH]; simpl; intros s s' tr Hi Hz Hex.
      - simplify_eq. done.
      - destruct (sys_step a s) as [[s1 t1]|] eqn:Hs; [|done].
        destruct (sys_exec acts s1) as [[s2 t2]|] eqn:He; [|done].
        simplify_eq.
        destruct (sys_step_asleep _ _ _ _ _ Ha Hi Hz Hs) as (Hi1 & Hz1 & Hp1).
        destruct (IH _ _ _ Hi1 Hz1 He) as (Hi2 & Hz2 & Hp2).
        repeat split; try done. by apply Forall_app. }
    repeat split; try done.
    simpl. rewrite Hi'. act_unfold. simpl. by rewrite Hz'.
  - eexists _, _. split; [reflexivity|]. done.
  - intros pc b Hpc.
    destruct pc as [| | | |r|[t|]|t|t|t|]; try done; act_unfold; simpl.
    + by destruct (m_queuestat (pool s)).
    + by destruct (m_queuelocker (pool s)).
    + destruct (m_workqueue (pool s)) as [|r q] eqn:E; simpl; [done|].
      by rewrite E.
Qed.

(** *** The database handle *)

(** C6: along every run from a freshly built pool, the events of each
    worker are finished rounds followed by the unfinished one, and a
    finished round that ran a task [t] is exactly: wait, lock, pop, unlock,
    acquire one handle for [t], [process()], release it; the other rounds
    (empty queue, null request) acquire nothing. A worker that holds a
    handle is never held up: its next statements are [process()] and the
    release, and only then is it back at the loop test. *)
Theorem db_handle_scoped p acts s tr :
  sys_exec acts (start_system p) = Some (s, tr) ->
  (forall i pc,
     workers s !! i = Some pc -> worker_history pc (events_of i tr))
  /\ (forall t p0,
       worker_step (RAIIBegin t) p0 = Some (Processing t, p0, [EvAcquire t])
       /\ worker_step (Processing t) p0 = Some (RAIIEnd t, p0, [EvProcess t])
       /\ worker_step (RAIIEnd t) p0 = Some (LoopTest, p0, [EvRelease t])).
Proof.
  intros Hex. split.
  - intros i pc Hi. pose proof (sys_exec_histories _ _ _ _ Hex i) as H.
    by rewrite Hi in H.
  - intros t p0. repeat split.
Qed.

(** *** The constructor *)

Lemma spawn_all_fine env i n :
  (forall k, i <= k < i + n ->
     pthread_create_ok env k = true /\ pthread_detach_ok env k = true) ->
  exists evs, @spawn T env i n = (true, evs) /\ created evs = n /\ detached evs = n.
Proof.
  revert i. induction n as [|n IH]; intros i Hok; simpl.
  - by exists [].
  - destruct (Hok i ltac:(lia)) as [-> ->].
    destruct (IH (S i)) as (evs & -> & Hc & Hd); [intros k Hk; apply Hok; lia|].
    eexists. split; [reflexivity|]. simpl. by rewrite Hc, Hd.
Qed.

Lemma spawn_failure env i n k :
  i <= k < i + n ->
  pthread_create_ok env k = false \/ pthread_detach_ok env k = false ->
  exists evs, @spawn T env i n = (false, evs).
Proof.
  revert i. induction n as [|n IH]; intros i Hk Hbad; simpl; [lia|].
  destruct (pthread_create_ok env i) eqn:Hc; [|by eexists].
  destruct (pthread_detach_ok env i) eqn:Hd; [|by eexists].
  destruct (IH (S i)) as (evs & ->); [|done|by eexists].
  destruct (decide (k = i)) as [->|]; [|lia].
  destruct Hbad; congruence.
Qed.

Lemma spawn_success env i n evs :
  @spawn T env i n = (true, evs) -> created evs = n /\ detached evs = n.
Proof.
  revert i evs. induction n as [|n IH]; intros i evs; simpl.
  - intros; simplify_eq. done.
  - destruct (pthread_create_ok env i); [|done].
    destruct (pthread_detach_ok env i); [|done].
    destruct (spawn env (S i) n) as [ok evs'] eqn:E. intros; simplify_eq.
    destruct (IH _ _ E) as [Hc Hd]. simpl. by rewrite Hc, Hd.
Qed.

(** C10, as the code has it: the constructor throws, before any thread is
    created, when [thread_number <= 0] or [max_requests <= 0]; it throws
    when some [pthread_create] or [pthread_detach] fails; when all of them
    succeed it returns, with the members initialised and exactly
    [thread_number] workers created and detached; and whenever it returns,
    that many were created and detached. *)
Theorem threadpool_ctor_outcomes env (cp : connection_pool) (n m : Z) :
  ((n <= 0 \/ m <= 0)%Z -> @threadpool_ctor T _ env cp n m = Threw [])
  /\ ((0 < n)%Z -> (0 < m)%Z -> new_ok env = true ->
      (exists k, k < Z.to_nat n
         /\ (pthread_create_ok env k = false \/ pthread_detach_ok env k = false)) ->
      exists evs, @threadpool_ctor T _ env cp n m = Threw evs)
  /\ ((0 < n)%Z -> (0 < m)%Z -> new_ok env = true ->
      (forall k, k < Z.to_nat n ->
         pthread_create_ok env k = true /\ pthread_detach_ok env k = true) ->
      exists evs,
        @threadpool_ctor T _ env cp n m =
          Constructed (mk_threadpool n m (Some (Z.to_nat n)) [] false 0 false cp) evs
        /\ created evs = Z.to_nat n /\ detached evs = Z.to_nat n)
  /\ (forall p0 evs,
        @threadpool_ctor T _ env cp n m = Constructed p0 evs ->
        (0 < n)%Z /\ (0 < m)%Z
        /\ created evs = Z.to_nat n /\ detached evs = Z.to_nat n
        /\ m_queuelocker p0 = false /\ m_workqueue p0 = [] /\ m_stop p0 = false).
Proof.
  unfold threadpool_ctor. split; [|split; [|split]].
  - intros Hbad.
    destruct (n <=? 0)%Z eqn:Hn; [done|]. destruct (m <=? 0)%Z eqn:Hm; [done|]. lia.
  - intros Hn Hm Hnew (k & Hk & Hbad).
    destruct (n <=? 0)%Z eqn:En; [lia|]. destruct (m <=? 0)%Z eqn:Em; [lia|].
    rewrite Hnew. simpl.
    destruct (spawn_failure env 0 (Z.to_nat n) k ltac:(lia) Hbad) as (evs & ->).
    by eexists.
  - intros Hn Hm Hnew Hok.
    destruct (n <=? 0)%Z eqn:En; [lia|]. destruct (m <=? 0)%Z eqn:Em; [lia|].
    rewrite Hnew. simpl.
    destruct (spawn_all_fine env 0 (Z.to_nat n)) as (evs & -> & Hc & Hd).
    { intros k Hk. apply Hok. lia. }
    by exists evs.
  - intros p0 evs.
    destruct (n <=? 0)%Z eqn:En; [done|]. destruct (m <=? 0)%Z eqn:Em; [done|].
    simpl. destruct (negb (new_ok env)); [done|].
    destruct (spawn env 0 (Z.to_nat n)) as [[] evs'] eqn:E; [|done].
    intros H. injection H as <- <-. apply spawn_success in E as [Hc Hd].
    simpl. split; [lia|]. split; [lia|]. done.
Qed.

End ThreadPoolFacts.

(** *** The theorems at the sample pools *)

Lemma append_atomic_sample :
  append (Some 7) Samples.pool_locked = None
  /\ exists b (p' : @threadpool nat unit) evs,
       append (Some 7) Samples.idle_pool = Some (b, p', evs)
       /\ m_queuelocker p' = false
       /\ count is_wait evs = 0
       /\ (b = false -> p' = Samples.idle_pool /\ evs = [EvLock; EvUnlock])
       /\ (b = true ->
           m_workqueue p' = m_workqueue Samples.idle_pool ++ [Some 7]
           /\ m_queuestat p' = S (m_queuestat Samples.idle_pool)
           /\ evs = [EvLock; EvPush (Some 7); EvUnlock; EvPost]).
Proof.
  split.
  - apply (proj1 (append_atomic (Some 7) Samples.pool_locked)). reflexivity.
  - apply (proj2 (append_atomic (Some 7) Samples.idle_pool)). reflexivity.
Defined.

Lemma work_queue_fifo_sample :
  exists (s' : @system nat unit) (tr : @trace nat),
    sys_exec Samples.three_tasks (start_system Samples.idle_pool) = Some (s', tr)
    /\ popped tr = [Some 10; Some 20; Some 30]
    /\ m_workqueue (pool (start_system Samples.idle_pool)) ++ pushed tr
       = popped tr ++ m_workqueue (pool s').
Proof.
  eexists _, _. split; [cbv; reflexivity|]. split; [reflexivity|].
  apply (work_queue_fifo Samples.three_tasks (start_system Samples.idle_pool)).
  cbv; reflexivity.
Defined.

Lemma worker_pop_guarded_sample :
  exists (s : @system nat unit) (tr : @trace nat),
    sys_exec Samples.before_pop (start_system Samples.idle_pool) = Some (s, tr)
    /\ workers s !! 0 = Some EmptyTest
    /\ m_queuelocker (pool s) = true
    /\ forall i, count is_pop (events_of i tr) <= count is_wait (events_of i tr).
Proof.
  eexists _, _. split; [cbv; reflexivity|]. split; [reflexivity|].
  split; [reflexivity|].
  refine (proj2 (proj2
    (worker_pop_guarded Samples.idle_pool Samples.before_pop _ _ _ _)));
    cbv; reflexivity.
Defined.

Lemma teardown_never_wakes_sample :
  exists (s' : @system nat unit) (tr : @trace nat),
    sys_exec Samples.teardown_run Samples.asleep = Some (s', tr)
    /\ m_stop (pool s') = true
    /\ workers s' !! 2 = Some Returned
    /\ workers s' !! 0 = Some SemWait
    /\ m_queuestat (pool s') = 0
    /\ sys_step (ActWorker 0) s' = None
    /\ Forall (fun x => is_post x.2 = false) tr.
Proof.
  eexists _, _. split; [cbv; reflexivity|]. split; [reflexivity|].
  split; [reflexivity|].
  refine (proj1 (teardown_never_wakes Samples.asleep 0 Samples.teardown_run _ _
                   eq_refl eq_refl _ eq_refl)).
  repeat constructor.
Defined.

Lemma db_handle_scoped_sample :
  exists (s : @system nat unit) (tr : @trace nat),
    sys_exec Samples.one_round (start_system Samples.idle_pool) = Some (s, tr)
    /\ events_of 1 tr = [EvWait; EvLock; EvPop (Some 10); EvUnlock;
                         EvAcquire 10; EvProcess 10; EvRelease 10]
    /\ events_of 0 tr = [EvWait; EvLock; EvPop None; EvUnlock]
    /\ forall i pc,
         workers s !! i = Some pc -> worker_history pc (events_of i tr).
Proof.
  eexists _, _. split; [cbv; reflexivity|]. split; [reflexivity|].
  split; [reflexivity|].
  refine (proj1 (db_handle_scoped Samples.idle_pool Samples.one_round _ _ _)).
  cbv; reflexivity.
Defined.

Lemma threadpool_ctor_outcomes_sample :
  @threadpool_ctor nat unit Samples.all_fine tt 0 10 = Threw []
  /\ (exists evs,
        @threadpool_ctor nat unit Samples.second_create_fails tt 2 10 = Threw evs)
  /\ (exists evs,
        @threadpool_ctor nat unit Samples.all_fine tt 3 2 =
          Constructed Samples.idle_pool evs
        /\ created evs = 3 /\ detached evs = 3).
Proof.
  split; [|split].
  - apply (proj1 (threadpool_ctor_outcomes Samples.all_fine tt 0 10)). left. lia.
  - apply (proj1 (proj2
      (threadpool_ctor_outcomes Samples.second_create_fails tt 2 10)));
      [lia | lia | reflexivity |].
    exists 1. split; [simpl; lia | left; reflexivity].
  - apply (proj1 (proj2 (proj2
      (threadpool_ctor_outcomes Samples.all_fine tt 3 2))));
      [lia | lia | reflexivity |].
    intros k _. split; reflexivity.
Defined.

(** C10, as the claim has it, fails: when the second [pthread_create]
    fails the constructor throws, and the first worker has been created and
    detached before: it is running [run()] on the pool whose construction
    did not complete. *)
Lemma threadpool_ctor_throws_after_spawn :
  @threadpool_ctor nat unit Samples.second_create_fails tt 2 10
    = Threw [EvCreate 0; EvDetach 0; EvDeleteThreads]
  /\ @created nat [EvCreate 0; EvDetach 0; EvDeleteThreads] = 1.
Proof. split; reflexivity. Qed.

(* ===================================================================== *)
(** ** More properties of the thread pool *)
(* ===================================================================== *)

Section ThreadPoolMore.

Context {T : Type} {connection_pool : Type}.
Implicit Types (p : @threadpool T connection_pool) (r : @request T).
Implicit Types (s : @system T connection_pool) (tr : @trace T).
Implicit Types (ws : list (@worker_pc T)).

Lemma pcs_count_insert f ws i pc pc' :
  ws !! i = Some pc ->
  pcs_count f (<[i := pc']> ws) + (if f pc then 1 else 0)
  = pcs_count f ws + (if f pc' then 1 else 0).
Proof.
  revert i. induction ws as [|w ws IH]; intros [|i] H; simplify_eq/=; [lia|].
  specialize (IH _ H). lia.
Qed.


Lemma pcs_count_le f ws : pcs_count f ws <= length ws.
Proof. induction ws as [|w ws IH]; simpl; [done|]. destruct (f w); lia. Qed.

Lemma pcs_count_replicate f n :
  f (@LoopTest T) = false -> pcs_count f (replicate n LoopTest) = 0.
Proof. intros Hf. induction n as [|n IH]; simpl; [done|]. by rewrite Hf, IH. Qed.

Lemma events_app tr1 tr2 : events (tr1 ++ tr2) = events tr1 ++ events tr2.
Proof. apply map_app. Qed.

Lemma events_by_thread th (es : list (@event T)) : events (by_thread th es) = es.
Proof. induction es as [|e es IH]; simpl; [done|]. by f_equal. Qed.

(** *** The bound the queue really keeps *)

Lemma size_t_of_int_small (z : Z) : (0 <= z < 2 ^ 31)%Z -> size_t_of_int z = z.
Proof. intros Hz. unfold size_t_of_int. apply Z.mod_small. lia. Qed.

Lemma sys_step_queue_bound a s s' evs (M : Z) :
  (0 < M < 2 ^ 31)%Z ->
  m_max_requests (pool s) = M ->
  (Z.of_nat (length (m_workqueue (pool s))) <= M + 1)%Z ->
  sys_step a s = Some (s', evs) ->
  m_max_requests (pool s') = M
  /\ (Z.of_nat (length (m_workqueue (pool s'))) <= M + 1)%Z.
Proof.
  intros HM Hmax Hlen H. apply sys_step_inv in H as
    [(r & b & p' & es & -> & Ha & -> & ->)
    |[(u & p' & es & -> & Hd & -> & ->)
    |(i & pc & pc' & p' & es & -> & Hi & Hw & -> & ->)]]; simpl.
  - destruct (m_queuelocker (pool s)) eqn:Hl.
    + by rewrite append_held_lock in Ha.
    + rewrite append_free_lock in Ha by done.
      rewrite Hmax, size_t_of_int_small in Ha by lia.
      destruct (_ >? _)%Z eqn:E; simplify_eq; simpl; [done|].
      split; [done|]. rewrite length_app. simpl. lia.
  - unfold destroy in Hd. by simplify_eq.
  - apply worker_step_inv in Hw.
    destruct pc as [| | | |r|[t|]|t|t|t|]; try done;
      try (destruct Hw as (-> & -> & ->); done).
    + destruct Hw as (n & _ & -> & -> & ->). done.
    + destruct Hw as (_ & -> & -> & ->). done.
    + destruct Hw as [(Hq & -> & -> & ->)|(r & q & Hq & -> & -> & ->)]; [done|].
      simpl. split; [done|]. rewrite Hq in Hlen. simpl in Hlen. lia.
Qed.

(** X1: the configured bound is an [int] the constructor has checked to be
    positive. From a pool whose queue holds at most [m_max_requests + 1]
    requests, whatever the producer, the workers and the destructor do, the
    bound stays as configured and the queue never holds more than
    [m_max_requests + 1] requests; and a call of [append] that finds the
    lock free is turned down exactly when the queue holds that many. *)
Theorem queue_bound s acts s' tr :
  (0 < m_max_requests (pool s) < 2 ^ 31)%Z ->
  (Z.of_nat (length (m_workqueue (pool s))) <= m_max_requests (pool s) + 1)%Z ->
  sys_exec acts s = Some (s', tr) ->
  m_max_requests (pool s') = m_max_requests (pool s)
  /\ (Z.of_nat (length (m_workqueue (pool s'))) <= m_max_requests (pool s) + 1)%Z
  /\ (forall r,
        m_queuelocker (pool s') = false ->
        exists b p' evs,
          append r (pool s') = Some (b, p', evs)
          /\ (b = false <->
              Z.of_nat (length (m_workqueue (pool s')))
              = (m_max_requests (pool s) + 1)%Z)).
Proof.
  intros HM Hlen Hex.
  assert (m_max_requests (pool s') = m_max_requests (pool s)
          /\ (Z.of_nat (length (m_workqueue (pool s')))
              <= m_max_requests (pool s) + 1)%Z) as [Hmax' Hlen'].
  { apply (sys_exec_invariant
      (fun s1 _ => m_max_requests (pool s1) = m_max_requests (pool s)
                   /\ (Z.of_nat (length (m_workqueue (pool s1)))
                       <= m_max_requests (pool s) + 1)%Z))
      with (acts := acts) (s := s) (tr := []) (s' := s') (tr' := tr); try done.
    intros a s1 _ s2 evs [H1 H2] Hs. by eapply sys_step_queue_bound. }
  split; [done|]. split; [done|].
  intros r Hfree. rewrite (append_free_lock r _ Hfree).
  rewrite Hmax', size_t_of_int_small by lia.
  destruct (_ >? _)%Z eqn:E.
  - eexists _, _, _. split; [done|]. apply Z.gtb_lt in E. split; [lia|done].
  - eexists _, _, _. split; [done|].
    assert (~ (Z.of_nat (length (m_workqueue (pool s'))) > m_max_requests (pool s))%Z)
      by (rewrite Z.gtb_ltb in E; apply Z.ltb_ge in E; lia).
    split; [done|lia].
Qed.

(** *** Every wake-up finds a request *)



(** *** The lock is never kept *)


Lemma sys_step_worker s i pc pc' p' es :
  workers s !! i = Some pc ->
  worker_step pc (pool s) = Some (pc', p', es) ->
  sys_step (ActWorker i) s
  = Some (mk_system p' (<[i := pc']> (workers s)), by_thread (WorkerThread i) es).
Proof. intros Hi Hw. simpl. by rewrite Hi, Hw. Qed.




(** *** After the stop flag *)



(** *** What the constructor has done when it leaves *)

Lemma spawn_trace (env : pthread_env) i n :
  let pairs := flat_map (fun j => [@EvCreate T j; EvDetach j]) in
  match @spawn T env i n with
  | (true, evs) =>
      evs = pairs (seq i n)
      /\ forall k, i <= k < i + n ->
           pthread_create_ok env k = true /\ pthread_detach_ok env k = true
  | (false, evs) =>
      exists k, i <= k < i + n
        /\ (forall j, i <= j < k ->
              pthread_create_ok env j = true /\ pthread_detach_ok env j = true)
        /\ ((pthread_create_ok env k = false
             /\ evs = pairs (seq i (k - i)) ++ [EvDeleteThreads])
            \/ (pthread_create_ok env k = true
                /\ pthread_detach_ok env k = false
                /\ evs = pairs (seq i (k - i)) ++ [EvCreate k; EvDeleteThreads]))
  end.
Proof.
  intros pairs. revert i. induction n as [|n IH]; intros i; simpl.
  - split; [done|]. intros k Hk. lia.
  - destruct (pthread_create_ok env i) eqn:Hc.
    2:{ exists i. split; [lia|]. split; [intros j Hj; lia|].
        left. by rewrite Nat.sub_diag. }
    destruct (pthread_detach_ok env i) eqn:Hd.
    2:{ exists i. split; [lia|]. split; [intros j Hj; lia|].
        right. by rewrite Nat.sub_diag. }
    specialize (IH (S i)). destruct (spawn env (S i) n) as [[] evs].
    + destruct IH as [-> Hok]. split; [done|]. intros k Hk.
      destruct (decide (k = i)) as [->|Hne]; [done|]. apply Hok. lia.
    + destruct IH as (k & Hk & Hbefore & Hat). exists k. split; [lia|].
      assert (k - i = S (k - S i)) as -> by lia. split.
      * intros j Hj. destruct (decide (j = i)) as [->|Hne]; [done|].
        apply Hbefore. lia.
      * destruct Hat as [(Hck & ->)|(Hck & Hdk & ->)]; [left|right]; done.
Qed.

Lemma count_delete_spawned k : count is_delete (@spawned T k) = 0.
Proof.
  unfold spawned.
  assert (forall i, count is_delete
            (flat_map (fun j => [@EvCreate T j; EvDetach j]) (seq i k)) = 0)
    as H; [|apply H].
  induction k as [|k IH]; intros i; simpl; [done|]. apply IH.
Qed.

(** X5: whenever the constructor throws, either nothing at all has been done
    (an argument was not positive, or the array could not be allocated), or
    there is a first thread index [k] at which [pthread_create] or
    [pthread_detach] failed: the threads before [k] were all created and
    detached, in index order, thread [k] was created exactly when it was
    the detach that failed, no later thread was touched, and the array was
    freed once, as the last thing before the throw. *)
Theorem threadpool_ctor_throw_trace env (cp : connection_pool) (n m : Z) evs :
  @threadpool_ctor T _ env cp n m = Threw evs ->
  (evs = [] /\ ((n <= 0)%Z \/ (m <= 0)%Z \/ new_ok env = false))
  \/ ((0 < n)%Z /\ (0 < m)%Z /\ new_ok env = true
      /\ count is_delete evs = 1
      /\ exists k, k < Z.to_nat n
           /\ (forall j, j < k ->
                 pthread_create_ok env j = true /\ pthread_detach_ok env j = true)
           /\ ((pthread_create_ok env k = false
                /\ evs = spawned k ++ [EvDeleteThreads])
               \/ (pthread_create_ok env k = true
                   /\ pthread_detach_ok env k = false
                   /\ evs = spawned k ++ [EvCreate k; EvDeleteThreads]))).
Proof.
  unfold threadpool_ctor.
  destruct (n <=? 0)%Z eqn:En; simpl.
  { intros H. simplify_eq. left. split; [done|]. left. lia. }
  destruct (m <=? 0)%Z eqn:Em; simpl.
  { intros H. simplify_eq. left. split; [done|]. right. left. lia. }
  destruct (new_ok env) eqn:Hnew; simpl.
  2:{ intros H. simplify_eq. left. split; [done|]. by right; right. }
  pose proof (spawn_trace env 0 (Z.to_nat n)) as Hsp. simpl in Hsp.
  destruct (spawn env 0 (Z.to_nat n)) as [[] evs']; [done|].
  intros H. simplify_eq. right.
  destruct Hsp as (k & Hk & Hbefore & Hat). rewrite Nat.sub_0_r in Hat.
  split; [lia|]. split; [lia|]. split; [done|]. split.
  - destruct Hat as [(_ & ->)|(_ & _ & ->)];
      rewrite count_app; fold (@spawned T k); rewrite count_delete_spawned; done.
  - exists k. split; [lia|]. split; [intros j Hj; apply Hbefore; lia|]. done.
Qed.

(** X6: the constructor returns only if the array was allocated and every
    [pthread_create] and [pthread_detach] succeeded; what it has done then
    is create and detach thread 0, then thread 1, and so on up to
    [thread_number - 1], the array is never freed, and the pool it leaves
    has an empty queue, a free lock, a semaphore at zero and a clear stop
    flag. *)
Theorem threadpool_ctor_return_trace env (cp : connection_pool) (n m : Z) p evs :
  @threadpool_ctor T _ env cp n m = Constructed p evs ->
  evs = spawned (Z.to_nat n)
  /\ count is_delete evs = 0
  /\ new_ok env = true
  /\ (forall k, k < Z.to_nat n ->
        pthread_create_ok env k = true /\ pthread_detach_ok env k = true)
  /\ p = mk_threadpool n m (Some (Z.to_nat n)) [] false 0 false cp.
Proof.
  unfold threadpool_ctor.
  destruct (n <=? 0)%Z eqn:En; simpl; [done|].
  destruct (m <=? 0)%Z eqn:Em; simpl; [done|].
  destruct (new_ok env) eqn:Hnew; simpl; [|done].
  pose proof (spawn_trace env 0 (Z.to_nat n)) as Hsp. simpl in Hsp.
  destruct (spawn env 0 (Z.to_nat n)) as [[] evs']; [|done].
  intros H. simplify_eq. destruct Hsp as [-> Hok].
  split; [done|]. split; [apply count_delete_spawned|]. split; [done|].
  split; [|done]. intros k Hk. apply Hok. lia.
Qed.

(** *** Every task taken is processed once *)

Lemma taken_app (l1 l2 : list (@event T)) : taken (l1 ++ l2) = taken l1 ++ taken l2.
Proof. apply omap_app. Qed.

Lemma processed_app (l1 l2 : list (@event T)) :
  processed (l1 ++ l2) = processed l1 ++ processed l2.
Proof. apply omap_app. Qed.

Lemma rounds_taken (rounds : list (list (@event T))) :
  Forall iteration rounds -> taken (concat rounds) = processed (concat rounds).
Proof.
  induction 1 as [|evs rounds Hit _ IH]; simpl; [done|].
  rewrite taken_app, processed_app, IH. f_equal.
  destruct Hit as [->|[->|[t ->]]]; done.
Qed.

Lemma round_so_far_taken (pc : @worker_pc T) :
  taken (round_so_far pc) = processed (round_so_far pc) ++ carried pc.
Proof. destruct pc as [| | | |[t|]|[t|]|t|t|t|]; done. Qed.

(** X7: in every run from a freshly built pool, the tasks a worker has
    handed to [process()] are exactly the non-null requests it popped, in
    the order it popped them and each one once, except for the one it is
    still carrying between the pop and the call; a worker never carries
    more than one task, and a thread that is no worker pops and processes
    nothing. *)
Theorem tasks_processed_once p acts s tr i :
  sys_exec acts (start_system p) = Some (s, tr) ->
  match workers s !! i with
  | Some pc =>
      taken (events_of i tr) = processed (events_of i tr) ++ carried pc
      /\ length (carried pc) <= 1
  | None => taken (events_of i tr) = [] /\ processed (events_of i tr) = []
  end.
Proof.
  intros Hex. pose proof (sys_exec_histories _ _ _ _ Hex i) as Hh.
  destruct (workers s !! i) as [pc|]; [|by rewrite Hh].
  destruct Hh as (rounds & Hrounds & ->). split.
  - rewrite taken_app, processed_app, (rounds_taken _ Hrounds),
      round_so_far_taken. by rewrite <- (assoc_L (++)).
  - destruct pc as [| | | |[t|]|[t|]|t|t|t|]; simpl; lia.
Qed.

(** *** Database handles in use *)

Lemma sys_step_handles a s s' evs :
  sys_step a s = Some (s', evs) ->
  length (workers s') = length (workers s)
  /\ count is_acquire (events evs) + pcs_count in_scope (workers s)
     = count is_release (events evs) + pcs_count in_scope (workers s').
Proof.
  intros H. apply sys_step_inv in H as
    [(r & b & p' & es & -> & Ha & -> & ->)
    |[(u & p' & es & -> & Hd & -> & ->)
    |(i & pc & pc' & p' & es & -> & Hi & Hw & -> & ->)]];
    rewrite events_by_thread; simpl.
  - split; [done|]. destruct (m_queuelocker (pool s)) eqn:Hl.
    + by rewrite append_held_lock in Ha.
    + rewrite append_free_lock in Ha by done.
      destruct (_ >? _)%Z; simplify_eq; simpl; done.
  - unfold destroy in Hd. simplify_eq. simpl. done.
  - split; [by rewrite length_insert|].
    pose proof (pcs_count_insert in_scope (workers s) i pc pc' Hi) as Hins.
    apply worker_step_inv in Hw.
    destruct pc as [| | | |r|[t|]|t|t|t|]; try done;
      repeat match type of Hw with
             | _ /\ _ => destruct Hw as [? Hw]
             | _ \/ _ => destruct Hw as [Hw|Hw]
             | ex _ => destruct Hw as [? Hw]
             end; subst; simpl in *;
      try destruct (m_stop (pool s)); simpl in *; lia.
Qed.

(** X8: in every run from a freshly built pool, the number of database
    handles taken and not yet given back is the number of workers that are
    inside the scope of [mysqlcon], and so never more than
    [thread_number]; the number of workers itself never changes. *)
Theorem handles_bounded p acts s tr :
  sys_exec acts (start_system p) = Some (s, tr) ->
  length (workers s) = Z.to_nat (m_thread_number p)
  /\ count is_acquire (events tr)
     = count is_release (events tr) + pcs_count in_scope (workers s)
  /\ count is_acquire (events tr) - count is_release (events tr)
     <= Z.to_nat (m_thread_number p).
Proof.
  intros Hex.
  assert (length (workers s) = Z.to_nat (m_thread_number p)
          /\ count is_acquire (events ([] ++ tr))
             = count is_release (events ([] ++ tr))
               + pcs_count in_scope (workers s)) as [Hlen Hc].
  { apply (sys_exec_invariant
      (fun s1 tr1 =>
         length (workers s1) = Z.to_nat (m_thread_number p)
         /\ count is_acquire (events tr1)
            = count is_release (events tr1) + pcs_count in_scope (workers s1)))
      with (acts := acts) (s := start_system p); try done.
    - intros a s1 tr1 s2 evs [H1 H2] Hs.
      destruct (sys_step_handles a s1 s2 evs Hs) as [H3 H4].
      split; [lia|]. rewrite events_app, !count_app. lia.
    - simpl. rewrite length_replicate. split; [done|].
      by rewrite pcs_count_replicate. }
  simpl in Hc. split; [done|]. split; [done|].
  pose proof (pcs_count_le in_scope (workers s)). lia.
Qed.

(** *** A round of the loop, start to end *)

Lemma by_thread_app th (es1 es2 : list (@event T)) :
  by_thread th (es1 ++ es2) = by_thread th es1 ++ by_thread th es2.
Proof. apply map_app. Qed.

Lemma sys_exec_worker_run n i s pc pc' p' es :
  workers s !! i = Some pc ->
  worker_run n pc (pool s) = Some (pc', p', es) ->
  sys_exec (replicate n (ActWorker i)) s
  = Some (mk_system p' (<[i := pc']> (workers s)), by_thread (WorkerThread i) es).
Proof.
  revert s pc es. induction n as [|n IH]; intros s pc es Hi Hrun.
  - cbn [worker_run] in Hrun. unfold mret, Act_ret in Hrun. simplify_eq.
    cbn [replicate sys_exec].
    rewrite list_insert_id by done. by destruct s.
  - cbn [worker_run] in Hrun. unfold mbind, Act_bind in Hrun.
    destruct (worker_step pc (pool s)) as [[[pc1 p1] es1]|] eqn:Hstep; [|done].
    destruct (worker_run n pc1 p1) as [[[pc2 p2] es2]|] eqn:Hrest; [|done].
    simplify_eq. cbn [replicate sys_exec].
    rewrite (sys_step_worker _ _ _ _ _ _ Hi Hstep).
    erewrite (IH _ pc1 es2); [| |exact Hrest].
    2:{ cbn [workers]. apply list_lookup_insert_eq. by eapply lookup_lt_Some. }
    cbn [workers]. by rewrite list_insert_insert_eq, by_thread_app.
Qed.

(** X9: a worker at the loop test of a running pool whose lock is free and
    whose semaphore is positive gets through a whole round without ever
    being suspended. If the head of the queue is a task it takes nine
    statements: the task is popped, a database handle is taken, the task
    is processed, the handle is given back, and the worker is at the loop
    test again, with the lock free and the semaphore one lower. If the head
    is a null request it takes six, and neither a handle nor [process()] is
    involved. *)
Theorem idle_worker_serves_head s i r q :
  workers s !! i = Some LoopTest ->
  m_stop (pool s) = false ->
  m_queuelocker (pool s) = false ->
  0 < m_queuestat (pool s) ->
  m_workqueue (pool s) = r :: q ->
  let round :=
    match r with
    | Some t => [EvWait; EvLock; EvPop (Some t); EvUnlock;
                 EvAcquire t; EvProcess t; EvRelease t]
    | None => [EvWait; EvLock; EvPop None; EvUnlock]
    end in
  exists s',
    sys_exec (replicate (match r with Some _ => 9 | None => 6 end)
                        (ActWorker i)) s
    = Some (s', by_thread (WorkerThread i) round)
    /\ workers s' = workers s
    /\ m_workqueue (pool s') = q
    /\ m_queuestat (pool s') = m_queuestat (pool s) - 1
    /\ m_queuelocker (pool s') = false
    /\ m_stop (pool s') = false.
Proof.
  intros Hi Hstop Hlock Hsem Hq round.
  destruct s as [p ws]. cbn [pool workers] in *.
  destruct p as [tn mr th wq lk sem st cp]. cbn in Hstop, Hlock, Hsem, Hq.
  subst. destruct sem as [|sem]; [lia|].
  destruct r as [t|]; eexists; (split; [|split; [|split; [|split; [|split]]]]).
  1, 7: apply (sys_exec_worker_run _ i _ LoopTest); [exact Hi|reflexivity].
  all: cbn [workers pool m_workqueue m_queuestat m_queuelocker m_stop].
  all: try done.
  1, 3: by apply list_insert_id.
  all: cbn; lia.
Qed.

End ThreadPoolMore.

Lemma queue_bound_sample :
  exists (s : @system nat unit) (tr : @trace nat),
    sys_exec Samples.three_posted (start_system Samples.idle_pool) = Some (s, tr)
    /\ length (m_workqueue (pool s)) = 3
    /\ m_max_requests (pool s) = 2%Z
    /\ (Z.of_nat (length (m_workqueue (pool s))) <= 2 + 1)%Z
    /\ (forall r, m_queuelocker (pool s) = false ->
          exists b p' evs, append r (pool s) = Some (b, p', evs)
            /\ (b = false
                <-> Z.of_nat (length (m_workqueue (pool s))) = (2 + 1)%Z)).
Proof.
  eexists _, _. split; [cbv; reflexivity|]. split; [reflexivity|].
  refine (queue_bound (start_system Samples.idle_pool) Samples.three_posted
            _ _ _ _ _).
  - cbv. split; reflexivity.
  - cbv. discriminate.
  - cbv; reflexivity.
Defined.




Lemma threadpool_ctor_throw_trace_sample :
  let evs := [@EvCreate nat 0; EvDetach 0; EvCreate 1; EvDeleteThreads] in
  @threadpool_ctor nat unit Samples.second_detach_fails tt 3 2 = Threw evs
  /\ ((evs = []
       /\ ((3 <= 0)%Z \/ (2 <= 0)%Z \/ new_ok Samples.second_detach_fails = false))
      \/ ((0 < 3)%Z /\ (0 < 2)%Z /\ new_ok Samples.second_detach_fails = true
          /\ count is_delete evs = 1
          /\ exists k, k < Z.to_nat 3
               /\ (forall j, j < k ->
                     pthread_create_ok Samples.second_detach_fails j = true
                     /\ pthread_detach_ok Samples.second_detach_fails j = true)
               /\ ((pthread_create_ok Samples.second_detach_fails k = false
                    /\ evs = spawned k ++ [EvDeleteThreads])
                   \/ (pthread_create_ok Samples.second_detach_fails k = true
                       /\ pthread_detach_ok Samples.second_detach_fails k = false
                       /\ evs = spawned k ++ [EvCreate k; EvDeleteThreads])))).
Proof.
  split; [reflexivity|].
  exact (threadpool_ctor_throw_trace (T := nat) Samples.second_detach_fails
           tt 3 2 _ eq_refl).
Defined.

Lemma threadpool_ctor_return_trace_sample :
  exists evs,
    @threadpool_ctor nat unit Samples.all_fine tt 3 2
    = Constructed Samples.idle_pool evs
    /\ evs = spawned (Z.to_nat 3)
    /\ count is_delete evs = 0
    /\ new_ok Samples.all_fine = true
    /\ (forall k, k < Z.to_nat 3 ->
          pthread_create_ok Samples.all_fine k = true
          /\ pthread_detach_ok Samples.all_fine k = true)
    /\ Samples.idle_pool = mk_threadpool 3 2 (Some (Z.to_nat 3)) [] false 0 false tt.
Proof.
  eexists. split; [reflexivity|].
  exact (threadpool_ctor_return_trace (T := nat) Samples.all_fine tt 3 2
           Samples.idle_pool _ eq_refl).
Defined.

Lemma tasks_processed_once_sample :
  exists (s : @system nat unit) (tr : @trace nat),
    sys_exec Samples.three_tasks (start_system Samples.idle_pool) = Some (s, tr)
    /\ workers s !! 1 = Some (NullTest (Some 20))
    /\ taken (events_of 1 tr) = [20]
    /\ taken (events_of 1 tr)
       = processed (events_of 1 tr) ++ carried (NullTest (Some 20))
    /\ length (carried (NullTest (Some 20) : @worker_pc nat)) <= 1.
Proof.
  eexists _, _. split; [cbv; reflexivity|].
  match goal with
  | |- workers ?s !! 1 = _ /\ taken (events_of 1 ?tr) = _ /\ _ =>
      pose proof (tasks_processed_once Samples.idle_pool Samples.three_tasks
                    s tr 1) as H
  end.
  specialize (H ltac:(cbv; reflexivity)).
  split; [reflexivity|]. split; [reflexivity|]. exact H.
Defined.

Lemma handles_bounded_sample :
  exists (s : @system nat unit) (tr : @trace nat),
    sys_exec (Samples.three_tasks ++ Samples.to_top 0 ++ [ActWorker 1; ActWorker 1])
             (start_system Samples.idle_pool) = Some (s, tr)
    /\ count is_acquire (events tr) = 2
    /\ count is_release (events tr) = 1
    /\ length (workers s) = Z.to_nat (m_thread_number Samples.idle_pool)
    /\ count is_acquire (events tr)
       = count is_release (events tr) + pcs_count in_scope (workers s)
    /\ count is_acquire (events tr) - count is_release (events tr)
       <= Z.to_nat (m_thread_number Samples.idle_pool).
Proof.
  eexists _, _. split; [cbv; reflexivity|]. split; [reflexivity|].
  split; [reflexivity|].
  refine (handles_bounded Samples.idle_pool
            (Samples.three_tasks ++ Samples.to_top 0 ++ [ActWorker 1; ActWorker 1])
            _ _ _).
  cbv; reflexivity.
Defined.

Lemma idle_worker_serves_head_sample :
  exists s' : @system nat unit,
    sys_exec (replicate 9 (ActWorker 0)) (start_system Samples.pool_at_max)
    = Some (s', by_thread (WorkerThread 0)
                  [EvWait; EvLock; EvPop (Some 1); EvUnlock;
                   EvAcquire 1; EvProcess 1; EvRelease 1])
    /\ workers s' = workers (start_system Samples.pool_at_max)
    /\ m_workqueue (pool s') = [Some 2]
    /\ m_queuestat (pool s') = m_queuestat (pool (start_system Samples.pool_at_max)) - 1
    /\ m_queuelocker (pool s') = false
    /\ m_stop (pool s') = false.
Proof.
  refine (idle_worker_serves_head (start_system Samples.pool_at_max) 0
            (Some 1) [Some 2] _ _ _ _ _).
  - reflexivity.
  - reflexivity.
  - reflexivity.
  - cbv. lia.
  - reflexivity.
Defined.

(* ===================================================================== *)
(** ** Properties of the request parser *)
(* ===================================================================== *)

Import HttpConn.

(** A line without CR and LF. *)
Abbreviation clean := (Forall (fun a : ascii => a <> CR /\ a <> LF)).

Section ParserFacts.

Variable default_resource : list ascii.
Variable do_request : http_conn -> HTTP_CODE.

Abbreviation parse_request_line := (parse_request_line default_resource).
Abbreviation dispatch := (dispatch default_resource).
Abbreviation process_read_loop := (process_read_loop default_resource do_request).
Abbreviation process_read := (process_read default_resource do_request).
Abbreviation feed := (feed default_resource do_request).

(** *** The scan *)

Lemma scan_skip pre rest i :
  clean pre -> scan (pre ++ rest) i = scan rest (i + length pre).
Proof.
  intros Hc. revert i. induction Hc as [|a pre [Ha1 Ha2] _ IH]; intros i; simpl.
  - f_equal. simpl. lia.
  - destruct (decide (a = CR)); [done|]. destruct (decide (a = LF)); [done|].
    rewrite IH. f_equal. simpl. lia.
Qed.

Lemma scan_open_inv l i j :
  scan l i = (LINE_OPEN, j) ->
  exists pre, clean pre /\ j = i + length pre /\ (l = pre \/ l = pre ++ [CR]).
Proof.
  revert i. induction l as [|a l IH]; intros i; simpl.
  - intros; simplify_eq. exists []. split; [constructor|]. split; [simpl; lia|by left].
  - destruct (decide (a = CR)) as [->|Hcr].
    + destruct l as [|b l]; [|by destruct (decide (b = LF))].
      intros; simplify_eq. exists []. split; [constructor|]. split; [simpl; lia|by right].
    + destruct (decide (a = LF)); [done|]. intros H.
      apply IH in H as (pre & Hc & -> & Hl). exists (a :: pre).
      split; [by constructor|]. split; [simpl; lia|].
      destruct Hl as [->| ->]; [by left|by right].
Qed.

Lemma scan_ok_inv l i j :
  scan l i = (LINE_OK, j) ->
  exists pre rest, clean pre /\ j = i + length pre + 2
                   /\ l = pre ++ CR :: LF :: rest.
Proof.
  revert i. induction l as [|a l IH]; intros i; simpl; [done|].
  destruct (decide (a = CR)) as [->|Hcr].
  - destruct l as [|b l]; [done|]. destruct (decide (b = LF)) as [->|]; [|done].
    intros; simplify_eq. exists [], l. split; [constructor|]. split; [simpl; lia|done].
  - destruct (decide (a = LF)); [done|]. intros H.
    apply IH in H as (pre & rest & Hc & -> & ->). exists (a :: pre), rest.
    split; [by constructor|]. split; [simpl; lia|done].
Qed.

Lemma scan_ok pre rest i :
  clean pre -> scan (pre ++ CR :: LF :: rest) i = (LINE_OK, i + length pre + 2).
Proof.
  intros Hc. rewrite scan_skip by done. simpl.
  destruct (decide (CR = CR)); [|done]. by destruct (decide (LF = LF)).
Qed.

Lemma scan_open pre i : clean pre -> scan pre i = (LINE_OPEN, i + length pre).
Proof.
  intros Hc. rewrite <- (app_nil_r pre) at 1. by rewrite scan_skip.
Qed.

Lemma scan_open_cr pre i :
  clean pre -> scan (pre ++ [CR]) i = (LINE_OPEN, i + length pre).
Proof.
  intros Hc. rewrite scan_skip by done. simpl. by destruct (decide (CR = CR)).
Qed.

(** An open line stays where it is when more bytes arrive: scanning the
    longer buffer from the old index or from the index the scan stopped at
    is the same. *)
Lemma scan_resume l ext i j :
  scan l i = (LINE_OPEN, j) ->
  scan (l ++ ext) i = scan (drop (j - i) (l ++ ext)) j.
Proof.
  intros H. apply scan_open_inv in H as (pre & Hc & -> & Hl).
  replace (i + length pre - i) with (length pre) by lia.
  destruct Hl as [->| ->]; rewrite <- ?app_assoc.
  - by rewrite scan_skip, drop_app_length.
  - by rewrite scan_skip, drop_app_length.
Qed.

Lemma scan_ok_extend l ext i j :
  scan l i = (LINE_OK, j) -> scan (l ++ ext) i = (LINE_OK, j).
Proof.
  intros H. apply scan_ok_inv in H as (pre & rest & Hc & -> & ->).
  rewrite <- app_assoc. simpl. by rewrite scan_ok.
Qed.

(** *** The handlers and the cursor *)

(** The handlers neither read nor write the receive buffer and its
    indices. *)
Lemma dispatch_set_read_buf text c code c' b :
  dispatch text c = (code, c') ->
  dispatch text (set_read_buf b c) = (code, set_read_buf b c').
Proof.
  unfold HttpConn.dispatch, HttpConn.parse_request_line, parse_headers.
  destruct c; simpl. intros H.
  repeat (case_match; simplify_eq/=; try done).
Qed.

Lemma dispatch_keeps_cursor text c code c' :
  dispatch text c = (code, c') ->
  m_read_buf c' = m_read_buf c /\ m_checked_idx c' = m_checked_idx c
  /\ m_start_line c' = m_start_line c.
Proof.
  unfold HttpConn.dispatch, HttpConn.parse_request_line, parse_headers.
  destruct c; simpl. intros H.
  repeat (case_match; simplify_eq/=; try done).
Qed.

(** *** The loop and its fuel *)

Lemma loop_unfold f c :
  process_read_loop (S f) c =
    match m_check_state c with
    | CHECK_STATE_CONTENT =>
        match parse_content c with
        | (GET_REQUEST, c') => Some (do_request c', c')
        | (_, c') => Some (NO_REQUEST, c')
        end
    | _ =>
        match parse_line c with
        | (LINE_OPEN, c1) => Some (NO_REQUEST, c1)
        | (LINE_BAD, c1) => Some (BAD_REQUEST, c1)
        | (LINE_OK, c1) =>
            match dispatch (line_text c1) (set_start_line (m_checked_idx c1) c1) with
            | (NO_REQUEST, c3) => process_read_loop f c3
            | (GET_REQUEST, c3) => Some (do_request c3, c3)
            | (code, c3) => Some (code, c3)
            end
        end
    end.
Proof. reflexivity. Qed.

Lemma loop_mono f c r :
  process_read_loop f c = Some r -> process_read_loop (S f) c = Some r.
Proof.
  revert c. induction f as [|f IH]; intros c; [done|].
  rewrite (loop_unfold (S f)), (loop_unfold f).
  destruct (m_check_state c); try done;
    destruct (parse_line c) as [[] c1]; try done;
    destruct (dispatch _ _) as [[] c3]; try done; apply IH.
Qed.

Lemma loop_le f g c r :
  f <= g -> process_read_loop f c = Some r -> process_read_loop g c = Some r.
Proof. induction 1 as [|g Hle IH]; [done|]. intros Hf. by apply loop_mono, IH. Qed.

Lemma loop_deterministic f g c r r' :
  process_read_loop f c = Some r -> process_read_loop g c = Some r' -> r = r'.
Proof.
  intros Hf Hg.
  apply (loop_le f (f `max` g)) in Hf; [|lia].
  apply (loop_le g (f `max` g)) in Hg; [|lia]. congruence.
Qed.

(** Enough fuel always gives a result: [process_read] returns. *)
Lemma loop_total n c :
  length (m_read_buf c) - m_checked_idx c <= n ->
  exists r, process_read_loop (S n) c = Some r.
Proof.
  revert c. induction n as [|n IH]; intros c Hn; rewrite loop_unfold.
  all: destruct (m_check_state c);
    try (destruct (parse_content c) as [[] c']; by eexists).
  all: unfold parse_line;
    destruct (scan _ _) as [[] j] eqn:Hs; try by eexists.
  all: pose proof Hs as Hs'; apply scan_ok_inv in Hs' as (pre & rest & _ & -> & Hd);
    apply (f_equal length) in Hd; rewrite length_drop, length_app in Hd; simpl in Hd;
    try lia.
  all: destruct (dispatch _ _) as [code c3] eqn:Hdis;
    apply dispatch_keeps_cursor in Hdis as (Hb & Hc & _); simpl in Hb, Hc;
    destruct code; try by eexists.
  all: apply IH; rewrite Hb, Hc; lia.
Qed.

Lemma process_read_total c : exists r, process_read c = Some r.
Proof. apply loop_total. unfold m_read_idx. lia. Qed.

Lemma process_read_of_loop f c r :
  process_read_loop f c = Some r -> process_read c = Some r.
Proof.
  intros H. destruct (process_read_total c) as [r' Hr'].
  rewrite Hr'. f_equal. eapply loop_deterministic; done.
Qed.

Lemma loop_keeps_buffer f c code c' :
  process_read_loop f c = Some (code, c') -> m_read_buf c' = m_read_buf c.
Proof.
  revert c. induction f as [|f IH]; intros c; [done|]. rewrite loop_unfold.
  destruct (m_check_state c).
  3: { unfold parse_content. destruct (_ <=? _); intros; by simplify_eq. }
  all: unfold parse_line; destruct (scan _ _) as [[] j];
    try (intros; by simplify_eq).
  all: destruct (dispatch _ _) as [cd c3] eqn:Hdis;
    apply dispatch_keeps_cursor in Hdis as (Hb & _); simpl in Hb;
    destruct cd; try (intros; by simplify_eq).
  all: intros H; apply IH in H; congruence.
Qed.

(** *** Resuming after [NO_REQUEST] *)

Lemma line_text_extend (buf ext : list ascii) j st :
  j <= length buf ->
  take (j - 2 - st) (drop st (buf ++ ext)) = take (j - 2 - st) (drop st buf).
Proof.
  intros Hj. destruct (decide (st <= length buf)) as [Hle|Hgt].
  - rewrite drop_app_le by done. rewrite take_app_le; [done|].
    rewrite length_drop. lia.
  - replace (j - 2 - st) with 0 by lia. done.
Qed.

Section Resume.

(** [do_request] resolves a complete request: it does not answer "need more
    data". *)
Hypothesis do_request_terminal : forall c, do_request c <> NO_REQUEST.

(** When a run of the loop has answered [NO_REQUEST] and more bytes have
    arrived since, running on from the state that run left gives what a run
    from the state before it gives. *)
Lemma loop_resume f c c' ext :
  process_read_loop f c = Some (NO_REQUEST, c') ->
  forall g r,
    process_read_loop g (set_read_buf (m_read_buf c ++ ext) c') = Some r ->
    exists g', process_read_loop g' (set_read_buf (m_read_buf c ++ ext) c) = Some r.
Proof using do_request_terminal.
  revert c. induction f as [|f IH]; intros c; [done|]. rewrite loop_unfold.
  destruct (m_check_state c) eqn:Hst.
  3: { unfold parse_content. destruct (_ <=? _); intros H g r Hg; simplify_eq.
       - by destruct (do_request_terminal (set_string (Some (m_start_line c)) c)).
       - by exists g. }
  all: unfold parse_line; destruct (scan _ _) as [[] j] eqn:Hs; try done.
  (* a complete line: the longer buffer has the same line *)
  1,3: destruct (dispatch _ _) as [cd c3] eqn:Hdis; simpl in Hdis;
    destruct cd; try done.
  2,4: intros H; injection H as H1 _; by destruct (do_request_terminal c3).
  1,2: intros H g r Hg;
    pose proof (dispatch_keeps_cursor _ _ _ _ Hdis) as (Hb & _); simpl in Hb;
    rewrite <- Hb in Hg; destruct (IH c3 H g r Hg) as [g' Hg']; rewrite Hb in Hg';
    exists (S g'); rewrite loop_unfold; simpl; rewrite Hst;
    unfold parse_line; simpl;
    pose proof Hs as Hs'; apply scan_ok_inv in Hs' as (pre & rest & _ & Hj & Hd);
    pose proof (f_equal length Hd) as Hlen;
    rewrite length_drop, length_app in Hlen; simpl in Hlen;
    rewrite drop_app_le by lia;
    rewrite (scan_ok_extend _ ext _ _ Hs); simpl;
    unfold line_text, get_line; simpl;
    rewrite line_text_extend by lia;
    unfold line_text, get_line in Hdis; simpl in Hdis;
    apply (dispatch_set_read_buf _ _ _ _ (m_read_buf c ++ ext)) in Hdis;
    unfold set_read_buf in Hdis at 1; simpl in Hdis;
    unfold set_start_line, set_checked_idx, set_read_buf at 1; simpl;
    rewrite Hdis; exact Hg'.
  (* an open line: the scan goes on from where it stopped *)
  all: intros H g r Hg; simplify_eq; exists g;
    destruct g as [|g]; [done|]; rewrite loop_unfold in Hg |- *; simpl in Hg |- *;
    rewrite Hst in Hg |- *; unfold parse_line in Hg |- *; simpl in Hg |- *.
  all: assert (scan (drop (m_checked_idx c) (m_read_buf c ++ ext)) (m_checked_idx c)
               = scan (drop j (m_read_buf c ++ ext)) j) as ->; [|exact Hg].
  all: destruct (decide (m_checked_idx c <= length (m_read_buf c))) as [Hle|Hgt];
    [ pose proof Hs as Hs'; apply scan_open_inv in Hs' as (pre & _ & Hj & _);
      rewrite (drop_app_le _ _ (m_checked_idx c)) by done;
      rewrite (scan_resume _ ext _ _ Hs);
      rewrite <- (drop_app_le _ _ (m_checked_idx c)) by done;
      rewrite drop_drop; do 2 f_equal; lia
    | rewrite drop_ge in Hs by lia; simpl in Hs; by simplify_eq ].
Qed.

Lemma process_read_resume c c' bs :
  process_read c = Some (NO_REQUEST, c') ->
  process_read (read_once bs c') = process_read (read_once bs c).
Proof using do_request_terminal.
  intros H. pose proof (loop_keeps_buffer _ _ _ _ H) as Hb.
  destruct (process_read_total (read_once bs c')) as [r Hr]. rewrite Hr.
  unfold read_once, m_read_idx in *. rewrite Hb in Hr.
  destruct (loop_resume _ _ _ _ H _ _ Hr) as [g' Hg'].
  symmetry. by eapply process_read_of_loop.
Qed.

Lemma read_once_app a b c : read_once b (read_once a c) = read_once (a ++ b) c.
Proof.
  unfold read_once, m_read_idx, set_read_buf; simpl. f_equal.
  rewrite <- app_assoc. f_equal. rewrite take_app. f_equal.
  rewrite length_app, length_take. f_equal. lia.
Qed.

(** Incremental and batch parsing agree, for any bytes: while every chunk so
    far has been answered [NO_REQUEST], the answer to the next chunk is the
    answer [process_read] gives on a connection that got all the bytes at
    once. *)
Lemma feed_snoc chunks c c' ch :
  feed chunks c = Some (NO_REQUEST, c') ->
  feed (chunks ++ [ch]) c = process_read (read_once (concat chunks ++ ch) c).
Proof using do_request_terminal.
  revert c. induction chunks as [|chunk rest IH]; intros c; simpl.
  - intros; simplify_eq. by destruct (process_read _) as [[[] ?]|].
  - destruct (process_read (read_once chunk c)) as [[code c1]|] eqn:E; [|done].
    destruct code; try done. destruct rest as [|chunk2 rest].
    + intros; simplify_eq. simpl.
      rewrite app_nil_r, <- read_once_app, (process_read_resume _ _ _ E).
      by destruct (process_read (read_once ch _)) as [[[] ?]|].
    + intros H. specialize (IH _ H). simpl in IH |- *. rewrite IH.
      rewrite (process_read_resume _ _ _ E), read_once_app.
      by rewrite <- !app_assoc.
Qed.

End Resume.

(** *** Complete and open lines *)

Lemma terminated_cons l ls (body : list ascii) :
  terminated (l :: ls) ++ body = l ++ CRLF ++ terminated ls ++ body.
Proof. unfold terminated. simpl. by rewrite <- !app_assoc. Qed.

Lemma take_open_line (l rest : list ascii) k :
  k < length l + 2 -> take k (l ++ CRLF ++ rest) = take k (l ++ CRLF).
Proof.
  intros Hk. rewrite app_assoc, take_app_le; [done|].
  rewrite length_app. unfold CRLF. simpl. lia.
Qed.

Lemma take_full_line (l rest : list ascii) k :
  length l + 2 <= k ->
  take k (l ++ CRLF ++ rest) = l ++ CRLF ++ take (k - length l - 2) rest.
Proof.
  intros Hk. rewrite app_assoc, take_app_ge; rewrite length_app; unfold CRLF;
    simpl; [|lia].
  rewrite <- app_assoc. simpl. do 4 f_equal. lia.
Qed.

Lemma loop_open_line f c pre l k :
  m_check_state c <> CHECK_STATE_CONTENT ->
  m_checked_idx c = length pre -> clean l -> k < length l + 2 ->
  m_read_buf c = pre ++ take k (l ++ CRLF) ->
  exists cf, process_read_loop (S f) c = Some (NO_REQUEST, cf).
Proof.
  intros Hst Hi Hl Hk Hb. rewrite loop_unfold. unfold parse_line.
  rewrite Hb, Hi, drop_app_length.
  assert (exists j, scan (take k (l ++ CRLF)) (length pre) = (LINE_OPEN, j))
    as [j ->].
  { rewrite take_app. destruct (decide (k <= length l)).
    - replace (k - length l) with 0 by lia. rewrite take_0, app_nil_r.
      eexists. apply scan_open. by apply Forall_take.
    - replace (k - length l) with 1 by lia. rewrite take_ge by lia.
      eexists. by apply scan_open_cr. }
  destruct (m_check_state c); try done; by eexists.
Qed.

Lemma loop_full_line f c pre l rest :
  m_check_state c <> CHECK_STATE_CONTENT ->
  m_checked_idx c = length pre -> m_start_line c = length pre -> clean l ->
  m_read_buf c = pre ++ l ++ CRLF ++ rest ->
  process_read_loop (S f) c =
    match dispatch l (set_start_line (length pre + length l + 2)
                        (set_checked_idx (length pre + length l + 2) c)) with
    | (NO_REQUEST, c3) => process_read_loop f c3
    | (GET_REQUEST, c3) => Some (do_request c3, c3)
    | (code, c3) => Some (code, c3)
    end.
Proof.
  intros Hst Hi Hs Hl Hb. rewrite loop_unfold. unfold parse_line.
  rewrite Hb, Hi, drop_app_length. unfold CRLF; simpl.
  rewrite scan_ok by done. unfold line_text, get_line; simpl.
  rewrite Hs, Hb, drop_app_length.
  replace (length pre + length l + 2 - 2 - length pre) with (length l) by lia.
  rewrite take_app_length. by destruct (m_check_state c).
Qed.

(** *** The header block of a well-formed request *)

Lemma parse_headers_fields h c d :
  m_content_length c = m_content_length d ->
  m_content_length (parse_headers h c).2 = m_content_length (parse_headers h d).2.
Proof.
  unfold parse_headers. intros Hcd.
  repeat (case_match; simplify_eq/=; try done).
Qed.

Lemma after_headers_fields hs c d :
  m_content_length c = m_content_length d ->
  m_content_length (after_headers hs c) = m_content_length (after_headers hs d).
Proof.
  revert c d. induction hs as [|h hs IH]; intros c d Hcd; simpl; [done|].
  by apply IH, parse_headers_fields.
Qed.

Lemma parse_headers_line h c :
  h <> [] ->
  exists c', parse_headers h c = (NO_REQUEST, c')
             /\ m_check_state c' = m_check_state c /\ m_method c' = m_method c.
Proof.
  unfold parse_headers. intros Hh. destruct h as [|a h]; [done|].
  repeat (case_match; simplify_eq/=; try done); by eexists.
Qed.

Lemma headers_prefix hs : forall c pre body k,
  m_check_state c = CHECK_STATE_HEADER ->
  m_checked_idx c = length pre -> m_start_line c = length pre ->
  Forall (fun h => clean h /\ h <> []) hs ->
  m_read_buf c = pre ++ take k (terminated (hs ++ [[]]) ++ body) ->
  k <= length (terminated (hs ++ [[]]) ++ body) ->
  length body = match m_method c with
                | POST => m_content_length (after_headers hs c)
                | _ => 0
                end ->
  exists f cf,
    process_read_loop f c =
      Some (if decide (k = length (terminated (hs ++ [[]]) ++ body))
            then do_request cf else NO_REQUEST, cf).
Proof.
  induction hs as [|h hs IH]; intros c pre body k Hst Hi Hs Hall Hb Hk Hbody.
  - (* the empty line that ends the block *)
    assert (terminated ([] ++ [[]]) ++ body = [] ++ CRLF ++ body) as HX
      by reflexivity.
    rewrite HX in *. clear HX. simpl in Hk, Hbody.
    destruct (decide (k < 2)) as [Hlt|Hge].
    + assert (m_read_buf c = pre ++ take k ([] ++ CRLF)) as Hb'
        by (rewrite Hb; f_equal; by apply take_open_line).
      destruct (loop_open_line 0 c pre [] k) as [cf Hcf];
        [by rewrite Hst|done|constructor|simpl; lia|done|].
      exists 1, cf. rewrite Hcf. destruct (decide _) as [e|]; [simpl in e; lia|done].
    + assert (m_read_buf c = pre ++ [] ++ CRLF ++ take (k - 2) body) as Hb'.
      { rewrite Hb, (take_full_line [] body k) by (simpl; lia).
        simpl. do 4 f_equal. lia. }
      exists 2. rewrite (loop_full_line 1 c pre [] (take (k - 2) body));
        [|by rewrite Hst|done|done|constructor|done].
      unfold HttpConn.dispatch; simpl. rewrite Hst. unfold parse_headers; simpl.
      assert (length (take (k - 2) body) = k - 2) as Htk
        by (rewrite length_take; lia).
      destruct (m_method c) eqn:Hm;
        try (eexists; destruct (decide _); [done|lia]).
      destruct (0 <? m_content_length c) eqn:Hpos;
        [|apply Nat.ltb_ge in Hpos; eexists; destruct (decide _); [done|lia]].
      unfold parse_content, m_read_idx, set_check_state, set_start_line,
        set_checked_idx; simpl.
      rewrite Hb', !length_app, Htk. simpl.
      destruct (_ <=? _) eqn:Hle.
      * apply Nat.leb_le in Hle. eexists. destruct (decide _); [done|lia].
      * apply Nat.leb_gt in Hle. eexists. destruct (decide _); [lia|done].
  - (* a header line *)
    assert (terminated ((h :: hs) ++ [[]]) ++ body
            = h ++ CRLF ++ terminated (hs ++ [[]]) ++ body) as HX
      by exact (terminated_cons _ _ _).
    rewrite HX in *. clear HX. simpl in Hbody.
    apply Forall_cons in Hall as [[Hcl Hne] Hall].
    rewrite !length_app in Hk. simpl in Hk.
    destruct (decide (k < length h + 2)) as [Hlt|Hge].
    + assert (m_read_buf c = pre ++ take k (h ++ CRLF)) as Hb'
        by (rewrite Hb; f_equal; by apply take_open_line).
      destruct (loop_open_line 0 c pre h k) as [cf Hcf];
        [by rewrite Hst|done|done|done|done|].
      exists 1, cf. rewrite Hcf. destruct (decide _) as [Heq|]; [|done].
      rewrite !length_app in Heq. simpl in Heq. lia.
    + rewrite take_full_line in Hb by lia.
      set (j := length pre + length h + 2).
      destruct (parse_headers_line h (set_start_line j (set_checked_idx j c)) Hne)
        as (c3 & Hc3 & Hst3 & Hm3).
      pose proof (dispatch_keeps_cursor h (set_start_line j (set_checked_idx j c))
                    NO_REQUEST c3) as Hcur.
      unfold HttpConn.dispatch in Hcur; simpl in Hcur. rewrite Hst in Hcur.
      destruct (Hcur Hc3) as (Hb3 & Hi3 & Hs3). simpl in Hst3, Hm3.
      destruct (IH c3 (pre ++ h ++ CRLF) body (k - length h - 2)) as (f & cf & Hf).
      { congruence. }
      { rewrite Hi3, !length_app. simpl. lia. }
      { rewrite Hs3, !length_app. simpl. lia. }
      { done. }
      { rewrite Hb3, Hb. by rewrite <- !app_assoc. }
      { rewrite length_app. lia. }
      { rewrite Hbody, Hm3. destruct (m_method c); try done.
        replace c3 with (parse_headers h (set_start_line j (set_checked_idx j c))).2
          by (by rewrite Hc3).
        apply after_headers_fields, parse_headers_fields. done. }
      exists (S f), cf.
      rewrite (loop_full_line f c pre h (take (k - length h - 2)
                 (terminated (hs ++ [[]]) ++ body))); try done;
        [|by rewrite Hst].
      unfold HttpConn.dispatch; simpl. rewrite Hst. fold j. rewrite Hc3, Hf.
      rewrite !length_app. simpl.
      repeat case_decide; try done; rewrite ?length_app in *; lia.
Qed.

(** *** The request line of a well-formed request *)

Lemma forallb_clean l : forallb is_clean l = true -> clean l.
Proof.
  induction l as [|a l IH]; simpl; [constructor|].
  intros [Ha Hl]%andb_true_iff. constructor; [|by apply IH].
  unfold is_clean in Ha. apply andb_true_iff in Ha as [H1 H2].
  apply negb_true_iff, bool_decide_eq_false in H1, H2. done.
Qed.

Lemma forallb_token l :
  forallb is_token_char l = true -> clean l /\ Forall (fun a => a <> SP) l.
Proof.
  induction l as [|a l IH]; simpl; [by split; constructor|].
  intros [Ha Hl]%andb_true_iff. destruct (IH Hl) as [H1 H2].
  unfold is_token_char, is_clean in Ha.
  apply andb_true_iff in Ha as [[Hcr Hlf]%andb_true_iff Hsp].
  apply negb_true_iff, bool_decide_eq_false in Hcr, Hlf, Hsp.
  split; constructor; done.
Qed.

Lemma break_at_sep sep tok rest :
  Forall (fun a => a <> sep) tok ->
  break_at sep (tok ++ sep :: rest) = Some (tok, rest).
Proof.
  induction 1 as [|a tok Ha _ IH]; simpl.
  - by destruct (decide (sep = sep)).
  - destruct (decide (a = sep)); [done|]. by rewrite IH.
Qed.

Lemma break_at_none sep v :
  Forall (fun a => a <> sep) v -> break_at sep v = None.
Proof.
  induction 1 as [|a v Ha _ IH]; simpl; [done|].
  destruct (decide (a = sep)); [done|]. by rewrite IH.
Qed.

Lemma method_name_token m : forallb is_token_char (method_name m) = true.
Proof. by destruct m. Qed.

Lemma method_of_name m : method_of (method_name m) = Some m.
Proof. by destruct m. Qed.

Lemma request_line_clean r :
  forallb is_token_char (rq_url r) = true ->
  forallb is_token_char (rq_version r) = true ->
  clean (request_line r).
Proof.
  intros [Hu _]%forallb_token [Hv _]%forallb_token.
  destruct (forallb_token _ (method_name_token (rq_method r))) as [Hm _].
  unfold request_line. apply Forall_app. split; [done|].
  constructor; [done|]. apply Forall_app. split; [done|]. by constructor.
Qed.

Lemma parse_request_line_ok r c :
  forallb is_token_char (rq_url r) = true ->
  forallb is_token_char (rq_version r) = true ->
  nonempty (rq_version r) = true ->
  exists c3,
    parse_request_line (request_line r) c = (NO_REQUEST, c3)
    /\ m_check_state c3 = CHECK_STATE_HEADER
    /\ m_method c3 = rq_method r
    /\ m_content_length c3 = m_content_length c.
Proof.
  intros [_ Hu]%forallb_token [_ Hv]%forallb_token Hne.
  destruct (forallb_token _ (method_name_token (rq_method r))) as [_ Hm].
  unfold HttpConn.parse_request_line, request_line.
  rewrite (break_at_sep SP _ _ Hm), (break_at_sep SP _ _ Hu), method_of_name,
    (break_at_none SP _ Hv).
  destruct (rq_version r); [done|]. by eexists.
Qed.

(** *** Prefixes of a well-formed request *)

Lemma request_prefix r k c :
  well_formed r = true -> k <= length (wire r) ->
  m_check_state c = CHECK_STATE_REQUESTLINE ->
  m_checked_idx c = 0 -> m_start_line c = 0 -> m_content_length c = 0 ->
  m_read_buf c = take k (wire r) ->
  exists cf,
    process_read c =
      Some (if decide (k = length (wire r)) then do_request cf else NO_REQUEST, cf).
Proof.
  unfold well_formed.
  intros [[[[[Hu Hv]%andb_true_iff Hne]%andb_true_iff Hhs]%andb_true_iff
            Hbody]%andb_true_iff _]%andb_true_iff Hk Hst Hi Hs Hcl Hb.
  apply Nat.eqb_eq in Hbody.
  assert (wire r = request_line r ++ CRLF
                   ++ terminated (rq_headers r ++ [[]]) ++ rq_body r) as HW
    by exact (terminated_cons _ _ _).
  rewrite HW in *. clear HW.
  pose proof (request_line_clean r Hu Hv) as Hrl.
  assert (Forall (fun h => clean h /\ h <> []) (rq_headers r)) as Hall.
  { clear -Hhs. induction (rq_headers r) as [|h hs IH]; [constructor|].
    simpl in Hhs. apply andb_true_iff in Hhs as [[H1 H2]%andb_true_iff H3].
    constructor; [|by apply IH]. split; [by apply forallb_clean|].
    by destruct h. }
  rewrite !length_app in Hk. unfold CRLF in Hk. simpl in Hk.
  destruct (decide (k < length (request_line r) + 2)) as [Hlt|Hge].
  - assert (m_read_buf c = [] ++ take k (request_line r ++ CRLF)) as Hb'
      by (rewrite Hb; by apply take_open_line).
    destruct (loop_open_line 0 c [] (request_line r) k) as [cf Hcf];
      [by rewrite Hst|done|done|done|done|].
    exists cf. rewrite (process_read_of_loop _ _ _ Hcf).
    case_decide as Heq; [|done].
    rewrite !length_app in Heq. unfold CRLF in Heq. simpl in Heq. lia.
  - rewrite take_full_line in Hb by lia.
    set (j := length (request_line r) + 2).
    destruct (parse_request_line_ok r (set_start_line j (set_checked_idx j c))
                Hu Hv Hne) as (c3 & Hc3 & Hst3 & Hm3 & Hcl3).
    pose proof (dispatch_keeps_cursor (request_line r)
                  (set_start_line j (set_checked_idx j c)) NO_REQUEST c3) as Hcur.
    unfold HttpConn.dispatch in Hcur; simpl in Hcur. rewrite Hst in Hcur.
    destruct (Hcur Hc3) as (Hb3 & Hi3 & Hs3). simpl in Hcl3.
    destruct (headers_prefix (rq_headers r) c3 (request_line r ++ CRLF)
                (rq_body r) (k - length (request_line r) - 2)) as (f & cf & Hf).
    { done. }
    { rewrite Hi3, length_app. unfold CRLF. simpl. lia. }
    { rewrite Hs3, length_app. unfold CRLF. simpl. lia. }
    { done. }
    { rewrite Hb3, Hb. by rewrite <- !app_assoc. }
    { rewrite length_app. lia. }
    { rewrite Hbody, Hm3. unfold announced_body.
      destruct (rq_method r); try done.
      apply after_headers_fields. rewrite Hcl3, Hcl. done. }
    exists cf. apply (process_read_of_loop (S f)).
    rewrite (loop_full_line f c [] (request_line r)
               (take (k - length (request_line r) - 2)
                  (terminated (rq_headers r ++ [[]]) ++ rq_body r)));
      [|by rewrite Hst|done|done|done|done].
    unfold HttpConn.dispatch; simpl. rewrite Hst. fold j. rewrite Hc3, Hf.
    unfold CRLF. rewrite !length_app. simpl.
    repeat case_decide; try done; rewrite ?length_app in *; lia.
Qed.

Lemma wire_prefix r k :
  well_formed r = true -> k <= length (wire r) ->
  exists cf,
    process_read (read_once (take k (wire r)) init) =
      Some (if decide (k = length (wire r)) then do_request cf else NO_REQUEST, cf).
Proof.
  intros Hwf Hk. apply request_prefix; try done.
  unfold read_once, set_read_buf, m_read_idx. simpl.
  apply take_ge. rewrite length_take.
  unfold well_formed in Hwf. apply andb_true_iff in Hwf as [_ Hfit].
  apply Nat.leb_le in Hfit. unfold READ_BUFFER_SIZE in Hfit. lia.
Qed.

(** *** The Content-Length boundary *)

(** C7: for a well-formed POST whose headers declare Content-Length N, with
    the header block and [j] body bytes buffered, [process_read] returns
    [NO_REQUEST] while [j < N] and the resolution of the complete request
    when [j = N]; and in the Content state [parse_content] reports "need
    more data" while fewer than Content-Length bytes are buffered from
    [start_line] and "complete" with exactly that many. *)
Theorem content_length_boundary r j :
  well_formed r = true ->
  rq_method r = POST ->
  j <= length (rq_body r) ->
  (exists c,
     process_read
       (read_once (terminated (head_lines r) ++ take j (rq_body r)) init)
     = Some (if decide (j = m_content_length (after_headers (rq_headers r) init))
             then do_request c else NO_REQUEST, c))
  /\ (forall c,
        m_start_line c <= m_read_idx c ->
        (m_read_idx c - m_start_line c < m_content_length c ->
         parse_content c = (NO_REQUEST, c))
        /\ (m_read_idx c - m_start_line c = m_content_length c ->
            (parse_content c).1 = GET_REQUEST)).
Proof.
  intros Hwf Hpost Hj. split.
  - destruct (wire_prefix r (length (terminated (head_lines r)) + j) Hwf)
      as [cf Hcf].
    { unfold wire. rewrite length_app. lia. }
    exists cf. unfold wire in Hcf. rewrite take_app_add in Hcf. rewrite Hcf.
    unfold well_formed in Hwf.
    apply andb_true_iff in Hwf as [[_ Hbody%Nat.eqb_eq]%andb_true_iff _].
    unfold announced_body in Hbody. rewrite Hpost in Hbody.
    rewrite length_app, Hbody. repeat case_decide; try done; lia.
  - intros c Hle. unfold parse_content. split; intros H.
    + destruct (_ <=? _) eqn:E; [|done]. apply Nat.leb_le in E. lia.
    + destruct (_ <=? _) eqn:E; [done|]. apply Nat.leb_gt in E. lia.
Qed.

(** *** Incremental parsing is batch parsing *)

Lemma concat_one_by_one l : concat (one_by_one l) = l.
Proof. induction l as [|a l IH]; simpl; [done|]. by rewrite IH. Qed.

(** C8: for a well-formed request, with a [do_request] that resolves
    complete requests to a terminal classification: fed one byte at a time,
    the parser answers after each byte what [process_read] answers on a
    fresh connection that received the same bytes at once; that answer is
    [NO_REQUEST] for every proper prefix, and for the whole request it is
    the resolution of the complete request. *)
Theorem incremental_is_batch r :
  (forall c, do_request c <> NO_REQUEST) ->
  well_formed r = true ->
  (forall k, k <= length (wire r) ->
     feed (one_by_one (take k (wire r))) init
     = process_read (read_once (take k (wire r)) init))
  /\ (forall k, k < length (wire r) ->
        exists c, feed (one_by_one (take k (wire r))) init = Some (NO_REQUEST, c))
  /\ (exists c,
        feed (one_by_one (wire r)) init = Some (do_request c, c)
        /\ process_read (read_once (wire r) init) = Some (do_request c, c)).
Proof.
  intros Hterm Hwf.
  assert (forall k, k <= length (wire r) ->
            feed (one_by_one (take k (wire r))) init
            = process_read (read_once (take k (wire r)) init)) as Hfeed.
  { induction k as [|k IH]; intros Hk.
    - rewrite take_0. simpl.
      destruct (request_prefix r 0 (read_once [] init)) as [cf Hcf];
        [done|lia|done|done|done|done|by rewrite take_0|].
      rewrite Hcf. case_decide as Hz.
      + unfold wire in Hz. rewrite length_app in Hz.
        unfold head_lines, terminated in Hz. simpl in Hz.
        rewrite !length_app in Hz. simpl in Hz. lia.
      + pose proof (loop_keeps_buffer _ _ _ _ Hcf) as Hb.
        clear -Hcf. unfold HttpConn.process_read in Hcf.
        rewrite loop_unfold in Hcf. by simplify_eq.
    - destruct (lookup_lt_is_Some_2 (wire r) k) as [b Hb]; [lia|].
      rewrite (take_S_r _ _ _ Hb). unfold one_by_one. rewrite map_app. simpl.
      fold (one_by_one (take k (wire r))).
      destruct (wire_prefix r k Hwf) as [cf Hcf]; [lia|].
      rewrite decide_False in Hcf by lia.
      rewrite (feed_snoc Hterm _ _ cf); [|rewrite IH by lia; done].
      by rewrite concat_one_by_one. }
  split; [done|]. split.
  - intros k Hk. destruct (wire_prefix r k Hwf) as [cf Hcf]; [lia|].
    rewrite decide_False in Hcf by lia. exists cf. rewrite Hfeed by lia. done.
  - destruct (wire_prefix r (length (wire r)) Hwf) as [cf Hcf]; [lia|].
    rewrite decide_True, take_ge in Hcf by done. exists cf.
    specialize (Hfeed (length (wire r)) ltac:(lia)). rewrite take_ge in Hfeed by done.
    by rewrite Hfeed.
Qed.

End ParserFacts.

(* ===================================================================== *)
(** ** Properties of the response builder *)
(* ===================================================================== *)

Section ResponseFacts.

Variable content_type : list ascii.
Variable error_form : HTTP_CODE -> list ascii.
Variable file_size : nat.

Abbreviation process_write := (process_write content_type error_form file_size).
Abbreviation response_bytes := (response_bytes content_type error_form file_size).

(** Stores that stay inside the array all succeed, and change the array
    between [i] and [i + length bs] only. *)
Lemma store_all_inside bs : forall i buf,
  i + length bs <= length buf ->
  store_all i bs buf = Some (take i buf ++ bs ++ drop (i + length bs) buf).
Proof.
  induction bs as [|a bs IH]; intros i buf Hle; simpl in *.
  - by rewrite Nat.add_0_r, take_drop.
  - unfold store. destruct (decide (i < length buf)) as [Hlt|]; [|lia].
    rewrite IH by (rewrite length_insert; lia). f_equal.
    rewrite (take_S_r _ _ a) by (by apply list_lookup_insert_eq).
    rewrite take_insert_ge by done. rewrite drop_insert_lt by lia.
    rewrite <- app_assoc. simpl.
    by replace (i + S (length bs)) with (S (i + length bs)) by lia.
Qed.

Lemma add_response_cases formatted c :
  send_buffer_ok c ->
  (WRITE_BUFFER_SIZE < m_write_idx c + length formatted ->
   add_response formatted c = Some (false, c))
  /\ (m_write_idx c + length formatted <= WRITE_BUFFER_SIZE ->
      add_response formatted c =
        Some (true,
              set_write (take (m_write_idx c) (m_write_buf c) ++ formatted
                         ++ drop (m_write_idx c + length formatted) (m_write_buf c))
                        (m_write_idx c + length formatted) c)).
Proof.
  intros [Hlen Hidx]. unfold add_response. split; intros H.
  - apply Nat.ltb_lt in H. by rewrite H.
  - destruct (_ <? _) eqn:E; [apply Nat.ltb_lt in E; lia|].
    by rewrite store_all_inside by lia.
Qed.

Lemma set_write_ok buf i c :
  length buf = WRITE_BUFFER_SIZE -> i <= WRITE_BUFFER_SIZE ->
  send_buffer_ok (set_write buf i c).
Proof. by split. Qed.

Lemma written_length (buf bs : list ascii) i :
  i + length bs <= length buf ->
  length (take i buf ++ bs ++ drop (i + length bs) buf) = length buf.
Proof.
  intros H. rewrite !length_app, length_take, length_drop. lia.
Qed.

Lemma add_response_closed linger bs : fails_closed linger (add_response bs) bs.
Proof.
  intros c Hok Hl. destruct (add_response_cases bs c Hok) as [Hover Hfit].
  destruct Hok as [Hlen Hidx].
  destruct (decide (WRITE_BUFFER_SIZE < m_write_idx c + length bs)) as [Hlt|Hge].
  - exists false, c. rewrite Hover by done. done.
  - eexists true, _. rewrite Hfit by lia. split; [done|]. split; [|done].
    apply set_write_ok; [|lia]. rewrite written_length; lia.
Qed.

Lemma and_then_closed linger a b bs1 bs2 :
  fails_closed linger a bs1 -> fails_closed linger b bs2 ->
  fails_closed linger (and_then a b) (bs1 ++ bs2).
Proof.
  intros Ha Hb c Hok Hl. unfold and_then.
  destruct (Ha c Hok Hl) as (ok1 & c1 & -> & Hok1 & Hl1 & H1).
  destruct ok1.
  - destruct (Hb c1 Hok1 Hl1) as (ok2 & c2 & -> & Hok2 & Hl2 & H2).
    exists ok2, c2. split; [done|]. split; [done|]. split; [done|].
    intros ->. rewrite length_app, H2, H1 by done. lia.
  - by exists false, c1.
Qed.

Lemma add_linger_closed linger :
  fails_closed linger add_linger (linger_line linger).
Proof.
  intros c Hok Hl. unfold add_linger. rewrite Hl.
  by apply add_response_closed.
Qed.

Lemma add_headers_closed linger n :
  fails_closed linger (add_headers content_type n)
    (header_bytes content_type n linger).
Proof.
  unfold add_headers, header_bytes.
  apply (and_then_closed _ _ _ (content_length_line n));
    [apply add_response_closed|].
  apply (and_then_closed _ _ _ (content_type_line content_type));
    [apply add_response_closed|].
  apply (and_then_closed _ _ _ (linger_line linger) CRLF);
    [apply add_linger_closed|apply add_response_closed].
Qed.

Lemma process_write_closed linger ret :
  fails_closed linger (process_write ret) (response_bytes ret linger).
Proof.
  unfold HttpConn.process_write, HttpConn.response_bytes.
  destruct (status_of ret) as [[status title]|] eqn:Hs.
  - destruct ret; try done;
      (apply (and_then_closed _ _ _ (status_line status title));
       [apply add_response_closed|]);
      first [ apply add_headers_closed
            | apply (and_then_closed _ _ _ (header_bytes content_type _ linger));
              [apply add_headers_closed|apply add_response_closed] ].
  - intros c Hok Hl. exists false, c. by destruct ret.
Qed.

(** C9: on a connection whose send buffer is the whole array with the
    write index inside it, [add_response] always comes back without a store
    outside the array; when the formatted bytes would take the write index
    beyond [WRITE_BUFFER_SIZE] it answers [false] and leaves the connection
    as it was, otherwise it answers [true] with the bytes stored from the
    old write index on and nothing else changed; and [process_write], which
    chains the appends, answers [false] when the response it is asked for
    does not fit. *)
Theorem add_response_fails_closed formatted c :
  send_buffer_ok c ->
  (exists ok c',
     add_response formatted c = Some (ok, c')
     /\ send_buffer_ok c'
     /\ (WRITE_BUFFER_SIZE < m_write_idx c + length formatted ->
         ok = false /\ c' = c)
     /\ (m_write_idx c + length formatted <= WRITE_BUFFER_SIZE ->
         ok = true
         /\ m_write_idx c' = m_write_idx c + length formatted
         /\ m_write_buf c' =
              take (m_write_idx c) (m_write_buf c) ++ formatted
              ++ drop (m_write_idx c + length formatted) (m_write_buf c)))
  /\ (forall ret,
        exists ok c',
          process_write ret c = Some (ok, c')
          /\ send_buffer_ok c'
          /\ (WRITE_BUFFER_SIZE
                < m_write_idx c + length (response_bytes ret (m_linger c)) ->
              ok = false)).
Proof.
  intros Hok. split.
  - destruct (add_response_cases formatted c Hok) as [Hover Hfit].
    destruct (decide (WRITE_BUFFER_SIZE < m_write_idx c + length formatted))
      as [Hlt|Hge].
    + exists false, c. rewrite Hover by done.
      split; [done|]. split; [done|]. split; [done|]. intros Hle. lia.
    + eexists true, _. rewrite Hfit by lia. split; [done|].
      destruct Hok as [Hlen Hidx]. split; [|split; [lia|done]].
      apply set_write_ok; [|lia]. rewrite written_length; lia.
  - intros ret.
    destruct (process_write_closed (m_linger c) ret c Hok eq_refl)
      as (ok & c' & Hw & Hok' & _ & Hidx).
    exists ok, c'. repeat split; try done; try apply Hok'.
    intros Hover. destruct ok; [|done].
    destruct Hok' as [_ Hle]. rewrite Hidx in Hle by done. lia.
Qed.

End ResponseFacts.

(** *** The theorems at the sample requests *)

Lemma content_length_boundary_sample :
  (exists c,
     HttpConn.process_read HttpSamples.landing HttpSamples.serve_file
       (read_once (terminated (head_lines HttpSamples.register)
                   ++ take 10 (rq_body HttpSamples.register)) init)
     = Some (NO_REQUEST, c))
  /\ (exists c,
        HttpConn.process_read HttpSamples.landing HttpSamples.serve_file
          (read_once (terminated (head_lines HttpSamples.register)
                      ++ take 20 (rq_body HttpSamples.register)) init)
        = Some (FILE_REQUEST, c)).
Proof.
  split.
  - refine (proj1 (content_length_boundary HttpSamples.landing
                     HttpSamples.serve_file HttpSamples.register 10 _ _ _));
      [vm_compute; reflexivity | reflexivity | simpl; lia].
  - refine (proj1 (content_length_boundary HttpSamples.landing
                     HttpSamples.serve_file HttpSamples.register 20 _ _ _));
      [vm_compute; reflexivity | reflexivity | simpl; lia].
Defined.

Lemma incremental_is_batch_sample :
  exists c,
    HttpConn.feed HttpSamples.landing HttpSamples.serve_file
      (one_by_one (wire HttpSamples.register)) init = Some (FILE_REQUEST, c)
    /\ HttpConn.process_read HttpSamples.landing HttpSamples.serve_file
         (read_once (wire HttpSamples.register) init) = Some (FILE_REQUEST, c).
Proof.
  refine (proj2 (proj2 (incremental_is_batch HttpSamples.landing
                          HttpSamples.serve_file HttpSamples.register _ _)));
    [intros c; discriminate | vm_compute; reflexivity].
Defined.

Lemma add_response_fails_closed_sample :
  (exists c',
     add_response (bytes "HTTP/1.1 200 OK") HttpSamples.nearly_full
       = Some (false, c')
     /\ c' = HttpSamples.nearly_full)
  /\ (exists ok c',
        add_response (bytes "OK") HttpSamples.nearly_full = Some (ok, c')
        /\ send_buffer_ok c').
Proof.
  assert (send_buffer_ok HttpSamples.nearly_full) as Hok
    by (split; [reflexivity | vm_compute; lia]).
  split.
  - destruct (proj1 (add_response_fails_closed HttpSamples.html HttpSamples.form
                       HttpSamples.hundred (bytes "HTTP/1.1 200 OK")
                       HttpSamples.nearly_full Hok))
      as (ok & c1 & Hadd & _ & Hover & _).
    destruct Hover as [Hfalse Hsame]; [vm_compute; lia|].
    exists c1. split; [|exact Hsame]. rewrite <- Hfalse. exact Hadd.
  - destruct (proj1 (add_response_fails_closed HttpSamples.html HttpSamples.form
                       HttpSamples.hundred (bytes "OK")
                       HttpSamples.nearly_full Hok))
      as (ok & c1 & Hadd & Hok1 & _).
    exists ok, c1. split; [exact Hadd|exact Hok1].
Defined.
